(** * spinner.ts: a one-cell braille spinner for the terminal

    A verification development for [src/spinner.ts].  The program is a
    single-threaded asynchronous TypeScript module: [spin] starts the
    animation task [spinInternal], hands back [cancel] and the promise
    [done], and [main] drives both around [waitForKeypress].

    The embedding follows the source function by function.  Strings are
    sequences of code points, byte arrays are lists of 8-bit integers,
    and asynchronous functions are activations with a program counter
    that names the [await] they are suspended at.  One transition runs an
    activation from the [await] it is resumed at up to its next [await];
    the runtime decides which activation is resumed and with what outcome.
    Every call the program makes to the outside (a write to stderr, a
    timer, a call on stdin, a console line) is recorded, in program
    order, in a trace of effects: a write is on the trace from the moment
    [Deno.stderr.write] is called, whatever the runtime later reports for it.
    Which of the writes on a trace reached the terminal is not read off the
    trace: what the terminal shows is stated for the writes it received
    ([Terminal.receive]).

    The loop body of [spinInternal] ends in [throw new Error("test")]
    (line 98).  The step function of [spin] takes that closing statement as
    a parameter, so that what holds because of it and what holds in spite of
    it can be told apart; the program is the instance [Spin.line98]. *)

From Stdlib Require Import ZArith List Bool Lia Ascii String.
From stdpp Require Import base list.
Import ListNotations.

Local Open Scope Z_scope.

(** ** Strings, UTF-8, and the frame table (lines 6-25) *)

Module Text.

(** A JavaScript string of this program, as its sequence of code points. *)
Definition jsstring := list Z.

(** A string literal of the source. *)
Definition lit (s : string) : jsstring :=
  map (fun a => Z.of_N (N_of_ascii a)) (list_ascii_of_string s).

(** [String.fromCodePoint(cp)]. *)
Definition fromCodePoint (cp : Z) : jsstring := [cp].

(** [parts.join("")]. *)
Definition join (parts : list jsstring) : jsstring := concat parts.

(** UTF-8 encoding of one code point, as [TextEncoder] performs it: a
    surrogate that stands alone is replaced by U+FFFD. *)
Definition utf8 (c : Z) : list Z :=
  let c := if (0xD800 <=? c) && (c <=? 0xDFFF) then 0xFFFD else c in
  if c <? 0x80 then [c]
  else if c <? 0x800 then
    [Z.lor 0xC0 (Z.shiftr c 6); Z.lor 0x80 (Z.land c 0x3F)]
  else if c <? 0x10000 then
    [Z.lor 0xE0 (Z.shiftr c 12);
     Z.lor 0x80 (Z.land (Z.shiftr c 6) 0x3F);
     Z.lor 0x80 (Z.land c 0x3F)]
  else
    [Z.lor 0xF0 (Z.shiftr c 18);
     Z.lor 0x80 (Z.land (Z.shiftr c 12) 0x3F);
     Z.lor 0x80 (Z.land (Z.shiftr c 6) 0x3F);
     Z.lor 0x80 (Z.land c 0x3F)].

(** [new TextEncoder().encode(s)]. *)
Definition TextEncoder_encode (s : jsstring) : list Z := flat_map utf8 s.

(** The escape character, [\x1b]. *)
Definition ESC : string := String (ascii_of_nat 27) EmptyString.

Definition ANSI_CURSOR_LEFT : jsstring := lit (ESC ++ "[1D").
Definition ANSI_CURSOR_HIDE : jsstring := lit (ESC ++ "[?25l").
Definition ANSI_CURSOR_SHOW : jsstring := lit (ESC ++ "[?25h").

(** [Array.from({ length: n }, (_, i) => f(i))]. *)
Definition Array_from {A} (n : Z) (f : Z -> A) : list A :=
  map (fun i => f (Z.of_nat i)) (seq 0 (Z.to_nat n)).

Definition ALL_BRAILLE_CHARS : list jsstring :=
  Array_from (0x28FF - 0x2800 + 1) (fun i => fromCodePoint (0x2800 + i)).

Definition encode (char : jsstring) : list Z :=
  TextEncoder_encode (join [ANSI_CURSOR_LEFT; char]).

Definition ALL_BRAILLE_FRAMES : list (list Z) := map encode ALL_BRAILLE_CHARS.

(** UTF-8 decoding of a three-byte sequence, used to read a frame back. *)
Definition utf8_decode3 (b0 b1 b2 : Z) : option Z :=
  if (Z.land b0 0xF0 =? 0xE0) && (Z.land b1 0xC0 =? 0x80) && (Z.land b2 0xC0 =? 0x80)
  then Some (Z.lor (Z.shiftl (Z.land b0 0x0F) 12)
               (Z.lor (Z.shiftl (Z.land b1 0x3F) 6) (Z.land b2 0x3F)))
  else None.

(** A Unicode scalar value: a code point that is not a surrogate. *)
Definition scalar (c : Z) : Prop :=
  0 <= c < 0xD800 \/ 0xE000 <= c < 0x110000.

End Text.

(** ** What the runtime and the program exchange *)

Module Runtime.

(** The failures that occur in a run: the error the source constructs at
    line 98, and failures reported by the runtime (a rejected write, a
    rejected read, a refused [setRaw]), told apart by a code. *)
Inductive error :=
| ErrTest
| ErrEnv (code : nat).

(** The values promises of this program settle with: [undefined], or an
    error object. *)
Inductive value :=
| VUndefined
| VError (e : error).

(** The state of a native promise. *)
Inductive pstate :=
| Pending
| Fulfilled (v : value)
| Rejected (reason : value).

(** The outcome the runtime delivers for an operation the program awaits. *)
Inductive io :=
| Completed
| Failed (e : error).

(** The calls the program makes to the outside, as they are issued. *)
Inductive effect :=
| EWrite (bytes : list Z)   (* Deno.stderr.write(bytes) *)
| ESleep (ms : Z)           (* setTimeout(resolve, ms) *)
| ESetRaw (mode : bool)     (* Deno.stdin.setRaw(mode) *)
| ERead                     (* Deno.stdin.read(new Uint8Array(1)) *)
| ELog (line : string).     (* console.log(line) *)

(** The [resolve] and [reject] functions the [Promise] constructor hands to
    its executor: they settle a pending promise and do nothing to a settled
    one. *)
Definition native_resolve (v : value) (p : pstate) : pstate :=
  match p with
  | Pending => Fulfilled v
  | _ => p
  end.

Definition native_reject (reason : value) (p : pstate) : pstate :=
  match p with
  | Pending => Rejected reason
  | _ => p
  end.

Definition is_pending (p : pstate) : bool :=
  match p with
  | Pending => true
  | _ => false
  end.

End Runtime.

Export Runtime.

(** ** class Deferred (lines 42-76) *)

Module Deferred.

Record t := {
  promise : pstate;
  _isResolved : bool;
  _isRejected : bool
}.

(** The constructor: a pending promise, both flags false. *)
Definition new : t :=
  {| promise := Pending; _isResolved := false; _isRejected := false |}.

(** [this._resolve] (lines 66-69): set the flag, then call the native
    [resolve]. *)
Definition resolve (v : value) (d : t) : t :=
  {| promise := native_resolve v (promise d);
     _isResolved := true;
     _isRejected := _isRejected d |}.

(** [this._reject] (lines 70-73): set the flag, then call the native
    [reject]. *)
Definition reject (reason : value) (d : t) : t :=
  {| promise := native_reject reason (promise d);
     _isResolved := _isResolved d;
     _isRejected := true |}.

Definition isResolved (d : t) : bool := _isResolved d.
Definition isRejected (d : t) : bool := _isRejected d.
Definition isDone (d : t) : bool := _isResolved d || _isRejected d.

(** A call on a deferred, and a sequence of calls applied in order. *)
Inductive call :=
| Resolve (v : value)
| Reject (reason : value).

Definition apply (c : call) (d : t) : t :=
  match c with
  | Resolve v => resolve v d
  | Reject reason => reject reason d
  end.

Definition apply_all (cs : list call) (d : t) : t :=
  fold_left (fun d c => apply c d) cs d.

Definition is_Resolve (c : call) : bool :=
  match c with
  | Resolve _ => true
  | Reject _ => false
  end.

Definition is_Reject (c : call) : bool :=
  match c with
  | Resolve _ => false
  | Reject _ => true
  end.

(** What the first call of a sequence settles the promise to. *)
Definition first_outcome (cs : list call) : pstate :=
  match cs with
  | [] => Pending
  | Resolve v :: _ => Fulfilled v
  | Reject reason :: _ => Rejected reason
  end.

End Deferred.

(** ** function spin (lines 83-124) *)

Module Spin.

Import Text.

(** Where the activation of [spinInternal] stands. *)
Inductive loop_pc :=
| LAwaitHide               (* line 89, awaiting the hide-cursor write *)
| LAwaitWrite (i : nat)    (* line 96, awaiting the write of frame i *)
| LAwaitSleep (i : nat)    (* line 97, awaiting the timer after frame i *)
| LReturned                (* fell out of the while loop *)
| LThrown (e : error).     (* raised e *)

(** Where an activation of [cancel] stands. *)
Inductive cancel_pc :=
| CAwaitWrite              (* line 106, awaiting the cleanup write *)
| CAwaitDone               (* line 115, awaiting done.promise *)
| CReturned
| CThrown (reason : value).

(** The variables [spin] closes over, with the activation of
    [spinInternal], the reaction registered at line 119, and the
    activations of [cancel] in the order of the calls. *)
Record state := {
  ms : Z;
  cancelled : bool;
  done : Deferred.t;
  loop : loop_pc;
  reacted : bool;
  calls : list cancel_pc
}.

Definition set_loop (pc : loop_pc) (s : state) : state :=
  {| ms := ms s; cancelled := cancelled s; done := done s;
     loop := pc; reacted := reacted s; calls := calls s |}.

Definition set_done (d : Deferred.t) (s : state) : state :=
  {| ms := ms s; cancelled := cancelled s; done := d;
     loop := loop s; reacted := reacted s; calls := calls s |}.

Definition set_reacted (s : state) : state :=
  {| ms := ms s; cancelled := cancelled s; done := done s;
     loop := loop s; reacted := true; calls := calls s |}.

Definition set_calls (cs : list cancel_pc) (s : state) : state :=
  {| ms := ms s; cancelled := cancelled s; done := done s;
     loop := loop s; reacted := reacted s; calls := cs |}.

Definition set_cancelled (s : state) : state :=
  {| ms := ms s; cancelled := true; done := done s;
     loop := loop s; reacted := reacted s; calls := calls s |}.

(** The events of the runtime that move [spin]'s activations. *)
Inductive event :=
| LoopResume (r : io)              (* what spinInternal awaits completes with r *)
| React                            (* the reaction of line 119 runs *)
| CallCancel                       (* the caller invokes cancel() *)
| CancelWritten (k : nat) (r : io) (* the cleanup write of call k completes with r *)
| CancelDone (k : nat).            (* call k is resumed from done.promise *)

(** The bytes [cancel] writes (lines 106-113). *)
Definition CLEANUP : list Z :=
  TextEncoder_encode
    (join [ANSI_CURSOR_LEFT; lit " "; ANSI_CURSOR_LEFT; ANSI_CURSOR_SHOW]).

Definition HIDE : list Z := TextEncoder_encode ANSI_CURSOR_HIDE.

Definition frame_at (i : nat) : list Z := nth i ALL_BRAILLE_FRAMES [].

(** The for-of loop hands out frame [i] (lines 91-96): test the flag, then
    either break, which ends the while loop too since its condition reads
    the same flag, or write the frame. *)
Definition enter_frame (i : nat) (c : bool) : loop_pc * list effect :=
  if c then (LReturned, [])
  else (LAwaitWrite i, [EWrite (frame_at i)]).

(** Line 90: the while condition, then the first frame of the table. *)
Definition while_head (c : bool) : loop_pc * list effect :=
  if c then (LReturned, [])
  else enter_frame 0 c.

(** The end of the loop body for frame [i]: the next frame of the table,
    or, when the table is exhausted, the while condition again. *)
Definition next_frame (i : nat) (c : bool) : loop_pc * list effect :=
  if (S i <? length ALL_BRAILLE_FRAMES)%nat then enter_frame (S i) c
  else while_head c.

(** The promise [spinInternal()] returned. *)
Definition internalPromise (s : state) : pstate :=
  match loop s with
  | LReturned => Fulfilled VUndefined
  | LThrown e => Rejected (VError e)
  | _ => Pending
  end.

(** [p.then(onFulfilled, onRejected)] on a deferred: the reaction that runs
    once [p] is settled. *)
Definition then_ (onFulfilled onRejected : value -> Deferred.t -> Deferred.t)
    (p : pstate) (d : Deferred.t) : option Deferred.t :=
  match p with
  | Pending => None
  | Fulfilled v => Some (onFulfilled v d)
  | Rejected reason => Some (onRejected reason d)
  end.

(** [spin(ms)]: the parameter defaults to 500; [spinInternal()] runs up to
    its first await, which issues the hide-cursor write. *)
Definition spin (arg : option Z) : state * list effect :=
  ({| ms := default 500 arg;
      cancelled := false;
      done := Deferred.new;
      loop := LAwaitHide;
      reacted := false;
      calls := [] |},
   [EWrite HIDE]).

Section Step.

(** The statement that closes the loop body, after the sleep: [Some e]
    for [throw e], [None] for no statement.  The program has [line98]
    below; the other instance isolates what that statement does. *)
Variable tail : option error.

(** [spinInternal] resumed from its await with outcome [r]. *)
Definition resume_loop (r : io) (s : state) : option (loop_pc * list effect) :=
  match loop s, r with
  | LAwaitHide, Completed => Some (while_head (cancelled s))
  | LAwaitWrite i, Completed => Some (LAwaitSleep i, [ESleep (ms s)])
  | LAwaitSleep i, Completed =>
      match tail with
      | Some e => Some (LThrown e, [])
      | None => Some (next_frame i (cancelled s))
      end
  | (LAwaitHide | LAwaitWrite _ | LAwaitSleep _), Failed e => Some (LThrown e, [])
  | (LReturned | LThrown _), _ => None
  end.

Definition step (ev : event) (s : state) : option (state * list effect) :=
  match ev with
  | LoopResume r =>
      match resume_loop r s with
      | Some (pc, out) => Some (set_loop pc s, out)
      | None => None
      end
  | React =>
      (* line 119: internalPromise.then(done.resolve, done.resolve) *)
      if reacted s then None
      else
        match then_ Deferred.resolve Deferred.resolve (internalPromise s) (done s) with
        | Some d => Some (set_reacted (set_done d s), [])
        | None => None
        end
  | CallCancel =>
      (* lines 105-113 *)
      Some (set_calls (calls s ++ [CAwaitWrite]) (set_cancelled s), [EWrite CLEANUP])
  | CancelWritten k r =>
      match calls s !! k, r with
      | Some CAwaitWrite, Completed =>
          (* line 114, then the await of line 115 *)
          Some (set_calls (<[k := CAwaitDone]> (calls s))
                  (set_done (Deferred.resolve VUndefined (done s)) s), [])
      | Some CAwaitWrite, Failed e =>
          Some (set_calls (<[k := CThrown (VError e)]> (calls s)) s, [])
      | _, _ => None
      end
  | CancelDone k =>
      match calls s !! k, Deferred.promise (done s) with
      | Some CAwaitDone, Fulfilled _ =>
          Some (set_calls (<[k := CReturned]> (calls s)) s, [])
      | Some CAwaitDone, Rejected reason =>
          Some (set_calls (<[k := CThrown reason]> (calls s)) s, [])
      | _, _ => None
      end
  end.

(** A run: the events in order, the effects accumulated. *)
Fixpoint run (evs : list event) (s : state) : option (state * list effect) :=
  match evs with
  | [] => Some (s, [])
  | ev :: evs' =>
      match step ev s with
      | Some (s1, out1) =>
          match run evs' s1 with
          | Some (s2, out2) => Some (s2, out1 ++ out2)
          | None => None
          end
      | None => None
      end
  end.

End Step.

(** Line 98 of the source: [throw new Error("test")]. *)
Definition line98 : option error := Some ErrTest.

(** A full run of the program's [spin]: the call, then the events. *)
Definition trace_of (tail : option error) (arg : option Z) (evs : list event)
    : option (state * list effect) :=
  match run tail evs (fst (spin arg)) with
  | Some (s, out) => Some (s, snd (spin arg) ++ out)
  | None => None
  end.

(** The frame writes among the effects: writes of a byte array of the table. *)
Definition is_frame (bytes : list Z) : bool :=
  existsb (fun f => if decide (f = bytes) then true else false) ALL_BRAILLE_FRAMES.

Definition frame_writes (out : list effect) : list (list Z) :=
  flat_map (fun e => match e with
                     | EWrite b => if is_frame b then [b] else []
                     | _ => []
                     end) out.

Definition writes (out : list effect) : list (list Z) :=
  flat_map (fun e => match e with
                     | EWrite b => [b]
                     | _ => []
                     end) out.

(** ** Notions about runs of [spin] *)

(** Nothing in [spin] calls [done.reject]: the deferred is never rejected. *)
Definition unrejected (d : Deferred.t) : Prop :=
  Deferred._isRejected d = false /\ forall r, Deferred.promise d <> Rejected r.

(** While [cancel] has not been called, the deferred is as the constructor
    left it until the reaction of line 119 runs, and as the reaction left
    it afterwards. *)
Definition untouched (s : state) : Prop :=
  calls s = [] ->
  if reacted s
  then then_ Deferred.resolve Deferred.resolve (internalPromise s) Deferred.new = Some (done s)
  else done s = Deferred.new.

(** One call of [cancel] run to its end, nothing else in between. *)
Definition cancel_events (k : nat) : list event :=
  [CallCancel; CancelWritten k Completed; CancelDone k].

(** The state such a call leaves behind when [done] is not rejected. *)
Definition after_cancel (s : state) : state :=
  {| ms := ms s; cancelled := true;
     done := Deferred.resolve VUndefined (done s);
     loop := loop s; reacted := reacted s;
     calls := calls s ++ [CReturned] |}.

(** With line 98 in place, the effects of a run hold no frame at all while
    the hide-cursor write is outstanding, and at most the first frame later. *)
Definition at_most_first_frame (s : state) (out : list effect) : Prop :=
  match loop s with
  | LAwaitHide => frame_writes out = []
  | LAwaitWrite i => i = 0%nat /\ frame_writes out = [frame_at 0]
  | _ => frame_writes out = [] \/ frame_writes out = [frame_at 0]
  end.

(** The loop is past its first write. *)
Definition past_write (pc : loop_pc) : Prop :=
  match pc with
  | LAwaitHide | LAwaitWrite _ => False
  | _ => True
  end.

(** The same loop without the statement of line 98: [n] frames written
    and waited out in the order of the table, wrapping round at its end. *)
Definition tick_pc (n : nat) : loop_pc :=
  match n with
  | O => LAwaitHide
  | S m => LAwaitSleep (m mod 256)
  end.

Definition tick_effects (d : Z) (n : nat) : list effect :=
  flat_map (fun j => [EWrite (frame_at (j mod 256)); ESleep d]) (seq 0 n).

(** ** Further notions about runs of [spin] *)

(** The timers among the effects. *)
Definition timers (out : list effect) : list Z :=
  flat_map (fun e => match e with
                     | ESleep d => [d]
                     | _ => []
                     end) out.

(** How many cleanup sequences were written. *)
Definition cleanups (out : list effect) : nat :=
  count_occ (List.list_eq_dec Z.eq_dec) (writes out) CLEANUP.

Definition is_loop_event (ev : event) : bool :=
  match ev with
  | LoopResume _ => true
  | _ => false
  end.

Definition is_cancel_call (ev : event) : bool :=
  match ev with
  | CallCancel => true
  | _ => false
  end.

(** How many more times [spinInternal] can be resumed once the flag is set. *)
Definition resumptions_left (pc : loop_pc) : nat :=
  match pc with
  | LAwaitWrite _ => 2
  | LAwaitHide | LAwaitSleep _ => 1
  | LReturned | LThrown _ => 0
  end.

(** An activation of [cancel] that has not got past its write. *)
Definition before_resolve (pc : cancel_pc) : Prop :=
  match pc with
  | CAwaitWrite | CThrown _ => True
  | CAwaitDone | CReturned => False
  end.

(** While the reaction of line 119 has not run, [done] is pending with no
    call of [cancel] past its write, or fulfilled with [undefined]. *)
Definition settled_by_cancel_only (s : state) : Prop :=
  reacted s = false ->
  Deferred.promise (done s) = Fulfilled VUndefined \/
  (Deferred.promise (done s) = Pending /\ Forall before_resolve (calls s)).

(** The indices of the frame table. *)
Definition in_table (pc : loop_pc) : Prop :=
  match pc with
  | LAwaitWrite i | LAwaitSleep i => (i < length ALL_BRAILLE_FRAMES)%nat
  | _ => True
  end.

(** What [spin] and its activations issue after the hide-cursor write:
    cleanup sequences, frames of the table, and timers of [d] milliseconds. *)
Definition spin_effect (d : Z) (e : effect) : Prop :=
  match e with
  | EWrite b =>
      b = CLEANUP \/ exists i, (i < length ALL_BRAILLE_FRAMES)%nat /\ b = frame_at i
  | ESleep d' => d' = d
  | _ => False
  end.

(** How many more timers [spinInternal] can start once the flag is set. *)
Definition timers_left (pc : loop_pc) : nat :=
  match pc with
  | LAwaitWrite _ => 1
  | _ => 0
  end.

End Spin.

(** ** The terminal, as far as the cursor is concerned *)

Module Terminal.

(** Whether the cursor is shown, and how many bytes of the prefix
    ESC [ ? 2 5 of the two cursor sequences have just been received. *)
Record t := {
  visible : bool;
  seen : nat
}.

Definition initial : t := {| visible := true; seen := 0 |}.

(** The terminal receives one byte: ESC [ ? 2 5 h shows the cursor,
    ESC [ ? 2 5 l hides it, every other byte leaves it as it is. *)
Definition feed (tm : t) (b : Z) : t :=
  let restart := {| visible := visible tm; seen := if b =? 27 then 1 else 0 |} in
  let advance (expected : Z) :=
    if b =? expected then {| visible := visible tm; seen := S (seen tm) |}
    else restart in
  match seen tm with
  | 1%nat => advance 91
  | 2%nat => advance 63
  | 3%nat => advance 50
  | 4%nat => advance 53
  | 5%nat =>
      if b =? 104 then {| visible := true; seen := 0 |}
      else if b =? 108 then {| visible := false; seen := 0 |}
      else restart
  | _ => restart
  end.

Definition feed_all (tm : t) (bytes : list Z) : t := fold_left feed bytes tm.

(** The terminal after it has received the byte arrays [ws], in this
    order, and nothing else. *)
Definition receive (ws : list (list Z)) : t := feed_all initial (concat ws).

(** The terminal between escape sequences, its cursor shown or not. *)
Definition at_rest (v : bool) : t := {| visible := v; seen := 0 |}.

End Terminal.

(** ** waitForKeypress and main (lines 126-149) *)

Module Program.

Import Text.

(** The input stream: whether it is in raw mode, and what the next calls
    of [setRaw] will meet, in order: [Some e] for a call that throws [e],
    [None] for a call that goes through; calls beyond the list go through. *)
Record stdin := {
  raw : bool;
  faults : list (option error)
}.

(** [Deno.stdin.setRaw(mode)]. *)
Definition setRaw (mode : bool) (d : stdin) : stdin * option error :=
  match faults d with
  | Some e :: rest => ({| raw := raw d; faults := rest |}, Some e)
  | None :: rest => ({| raw := mode; faults := rest |}, None)
  | [] => ({| raw := mode; faults := [] |}, None)
  end.

(** Where the activation of [waitForKeypress] stands. *)
Inductive wfk_pc :=
| WAwaitRead               (* line 129 *)
| WReturned
| WThrown (e : error).

(** The finally block of [waitForKeypress] (line 131), entered with the
    completion [pending] of the try block: an exception of the finally block
    replaces it. *)
Definition wfk_finally (pending : wfk_pc) (d : stdin) : wfk_pc * stdin * list effect :=
  match setRaw false d with
  | (d', None) => (pending, d', [ESetRaw false])
  | (d', Some e) => (WThrown e, d', [ESetRaw false])
  end.

(** The call of [waitForKeypress()], up to its await. *)
Definition wfk_call (d : stdin) : wfk_pc * stdin * list effect :=
  match setRaw true d with
  | (d1, None) => (WAwaitRead, d1, [ESetRaw true; ERead])
  | (d1, Some e) =>
      let '(pc, d2, out) := wfk_finally (WThrown e) d1 in
      (pc, d2, ESetRaw true :: out)
  end.

(** [waitForKeypress] resumed from the read with outcome [r]. *)
Definition wfk_resume (r : io) (d : stdin) : wfk_pc * stdin * list effect :=
  match r with
  | Completed => wfk_finally WReturned d
  | Failed e => wfk_finally (WThrown e) d
  end.

(** [waitForKeypress] from call to completion, the read completing with [r]. *)
Definition waitForKeypress (r : io) (d : stdin) : wfk_pc * stdin * list effect :=
  match wfk_call d with
  | (WAwaitRead, d1, out1) =>
      let '(pc, d2, out2) := wfk_resume r d1 in
      (pc, d2, out1 ++ out2)
  | finished => finished
  end.

(** Where the activation of [main] stands. *)
Inductive main_pc :=
| MAwaitWorking            (* line 136 *)
| MAwaitKey                (* line 141 *)
| MAwaitDone               (* line 143 *)
| MReturned
| MThrown (reason : value).

Record state := {
  mpc : main_pc;
  wfk : option wfk_pc;            (* the activation of waitForKeypress, once called *)
  spinner : option Spin.state;    (* what spin(500) set up, once called *)
  dev : stdin
}.

Inductive event :=
| WorkingWritten (r : io)   (* the write of line 136 completes with r *)
| KeyRead (r : io)          (* the read of line 129 completes with r *)
| KeyAwaited                (* main is resumed from line 141 *)
| DoneAwaited               (* main is resumed from line 143 *)
| Spinner (ev : Spin.event).  (* the runtime moves an activation of the spinner *)

Definition SHOW : list Z := TextEncoder_encode ANSI_CURSOR_SHOW.
Definition WORKING : list Z := TextEncoder_encode (lit "Working... ").

(** The finally block of [main] (line 145): the write is issued, not
    awaited. *)
Definition main_finally : list effect := [EWrite SHOW].

(** [main(args)], up to its first await. *)
Definition main (d : stdin) : state * list effect :=
  ({| mpc := MAwaitWorking; wfk := None; spinner := None; dev := d |},
   [EWrite WORKING]).

(** Lines 139-141, up to the await of line 141. *)
Definition main_try (s : state) : state * list effect :=
  match setRaw true (dev s) with
  | (d1, Some e) =>
      ({| mpc := MThrown (VError e); wfk := wfk s; spinner := spinner s; dev := d1 |},
       ESetRaw true :: main_finally)
  | (d1, None) =>
      let '(sp, out_spin) := Spin.spin (Some 500) in
      let '(w, d2, out_wfk) := wfk_call d1 in
      ({| mpc := MAwaitKey; wfk := Some w; spinner := Some sp; dev := d2 |},
       ESetRaw true :: out_spin ++ out_wfk)
  end.

Definition is_call (ev : Spin.event) : bool :=
  match ev with
  | Spin.CallCancel => true
  | _ => false
  end.

Definition step (ev : event) (s : state) : option (state * list effect) :=
  match ev, mpc s with
  | WorkingWritten Completed, MAwaitWorking => Some (main_try s)
  | WorkingWritten (Failed e), MAwaitWorking =>
      Some ({| mpc := MThrown (VError e); wfk := wfk s; spinner := spinner s; dev := dev s |}, [])
  | KeyRead r, _ =>
      match wfk s with
      | Some WAwaitRead =>
          let '(w, d, out) := wfk_resume r (dev s) in
          Some ({| mpc := mpc s; wfk := Some w; spinner := spinner s; dev := d |}, out)
      | _ => None
      end
  | KeyAwaited, MAwaitKey =>
      match wfk s, spinner s with
      | Some WReturned, Some sp =>
          (* line 142: cancel(), not awaited; then the await of line 143 *)
          match Spin.step Spin.line98 Spin.CallCancel sp with
          | Some (sp', out) =>
              Some ({| mpc := MAwaitDone; wfk := wfk s; spinner := Some sp'; dev := dev s |}, out)
          | None => None
          end
      | Some (WThrown e), _ =>
          Some ({| mpc := MThrown (VError e); wfk := wfk s; spinner := spinner s; dev := dev s |},
                main_finally)
      | _, _ => None
      end
  | DoneAwaited, MAwaitDone =>
      match spinner s with
      | Some sp =>
          match Deferred.promise (Spin.done sp) with
          | Fulfilled _ =>
              (* finally, then line 148 *)
              Some ({| mpc := MReturned; wfk := wfk s; spinner := spinner s; dev := dev s |},
                    main_finally ++ [ELog "Done!"%string])
          | Rejected reason =>
              Some ({| mpc := MThrown reason; wfk := wfk s; spinner := spinner s; dev := dev s |},
                    main_finally)
          | Pending => None
          end
      | None => None
      end
  | Spinner ev, _ =>
      if is_call ev then None
      else
        match spinner s with
        | Some sp =>
            match Spin.step Spin.line98 ev sp with
            | Some (sp', out) =>
                Some ({| mpc := mpc s; wfk := wfk s; spinner := Some sp'; dev := dev s |}, out)
            | None => None
            end
        | None => None
        end
  | _, _ => None
  end.

Fixpoint run (evs : list event) (s : state) : option (state * list effect) :=
  match evs with
  | [] => Some (s, [])
  | ev :: evs' =>
      match step ev s with
      | Some (s1, out1) =>
          match run evs' s1 with
          | Some (s2, out2) => Some (s2, out1 ++ out2)
          | None => None
          end
      | None => None
      end
  end.

(** A full run of the program: the call of [main], then the events. *)
Definition trace_of (d : stdin) (evs : list event) : option (state * list effect) :=
  match run evs (fst (main d)) with
  | Some (s, out) => Some (s, snd (main d) ++ out)
  | None => None
  end.

(** The modes [setRaw] was called with, in order. *)
Definition raw_calls (out : list effect) : list bool :=
  flat_map (fun e => match e with
                     | ESetRaw mode => [mode]
                     | _ => []
                     end) out.

(** [main] has finished, one way or the other. *)
Definition main_finished (s : state) : bool :=
  match mpc s with
  | MReturned | MThrown _ => true
  | _ => false
  end.

(** A call of [cancel] has thrown: nothing handles the rejection of the
    promise [cancel()] returned at line 142, and the runtime ends the
    process on it. *)
Definition cancel_failed (s : state) : bool :=
  match spinner s with
  | Some sp => existsb (fun pc => match pc with Spin.CThrown _ => true | _ => false end)
                 (Spin.calls sp)
  | None => false
  end.

Definition exited (s : state) : bool := main_finished s || cancel_failed s.

(** The try block of [main] was entered: its first statement was executed. *)
Definition entered_try (out : list effect) : bool :=
  existsb (fun e => match e with ESetRaw true => true | _ => false end) out.

(** What holds of the program's state and effects all along a run:
    [main] has made no call on stdin while it waits at line 136; the
    show-cursor write of the finally block is not issued before [main]
    finishes; once [main] has finished after entering its try block, that
    write is on the trace and every write issued after it is a frame. *)
Definition invariant (s : state) (out : list effect) : Prop :=
  match mpc s with
  | MAwaitWorking =>
      entered_try out = false /\ spinner s = None /\ wfk s = None /\
      ~ In (EWrite SHOW) out
  | MAwaitKey | MAwaitDone => ~ In (EWrite SHOW) out
  | MReturned | MThrown _ =>
      entered_try out = true ->
      exists pre post,
        Spin.writes out = pre ++ SHOW :: post /\
        Forall (fun b => exists i, b = Spin.frame_at i) post
  end.

(** ** Further notions about runs of the program *)

(** How the activations stand to one another: [waitForKeypress] and the
    spinner exist once line 141 is reached; [cancel] has been called, once,
    exactly when [main] got past line 142; a [main] that threw either never
    started the spinner or threw what [waitForKeypress] threw; and [done] is
    never rejected. *)
Definition structure (s : state) : Prop :=
  (forall sp, spinner s = Some sp -> Spin.unrejected (Spin.done sp)) /\
  match mpc s with
  | MAwaitWorking => wfk s = None /\ spinner s = None
  | MAwaitKey =>
      exists sp w, spinner s = Some sp /\ wfk s = Some w /\
                   Spin.calls sp = [] /\ Spin.cancelled sp = false
  | MAwaitDone | MReturned =>
      exists sp, spinner s = Some sp /\ wfk s = Some WReturned /\
                 length (Spin.calls sp) = 1%nat /\ Spin.cancelled sp = true
  | MThrown reason =>
      (wfk s = None /\ spinner s = None) \/
      exists sp e, spinner s = Some sp /\ wfk s = Some (WThrown e) /\
                   reason = VError e /\
                   Spin.calls sp = [] /\ Spin.cancelled sp = false
  end.

(** How many lines were logged. *)
Definition logged (out : list effect) : nat :=
  length (List.filter (fun e => match e with ELog _ => true | _ => false end) out).

(** What is on the sink at the stages of [main]. *)
Definition sink_shape (s : state) (out : list effect) : Prop :=
  Spin.cleanups out = match spinner s with
                      | Some sp => length (Spin.calls sp)
                      | None => 0%nat
                      end /\
  match mpc s with
  | MAwaitWorking => out = [EWrite WORKING]
  | MAwaitKey => logged out = 0%nat
  | MAwaitDone =>
      logged out = 0%nat /\ exists pre, Spin.writes out = pre ++ [Spin.CLEANUP]
  | MReturned =>
      logged out = 1%nat /\ exists pre, Spin.writes out = pre ++ [Spin.CLEANUP; SHOW]
  | MThrown _ =>
      logged out = 0%nat /\
      (spinner s = None ->
       out = [EWrite WORKING] \/ out = [EWrite WORKING; ESetRaw true; EWrite SHOW])
  end.

(** On a stream whose [setRaw] calls all go through: they keep going
    through, entering the try block starts [waitForKeypress], and a finished
    [waitForKeypress] has left the stream out of raw mode. *)
Definition raw_mode_restored (s : state) (out : list effect) : Prop :=
  faults (dev s) = [] /\
  (entered_try out = true -> wfk s <> None) /\
  match wfk s with
  | Some WReturned | Some (WThrown _) => raw (dev s) = false
  | _ => True
  end.

(** The failures [main] can end with come from [cause]. *)
Definition caused_by (cause : error -> Prop) (s : state) : Prop :=
  (forall reason, mpc s = MThrown reason -> exists e, reason = VError e /\ cause e) /\
  (forall e, wfk s = Some (WThrown e) -> cause e) /\
  (forall e, In (Some e) (faults (dev s)) -> cause e) /\
  (forall sp, spinner s = Some sp -> Spin.unrejected (Spin.done sp)).

(** [main] got past line 142: it has called [cancel]. *)
Definition past_cancel (s : state) : bool :=
  match mpc s with
  | MAwaitDone | MReturned => true
  | _ => false
  end.

Definition returned (s : state) : bool :=
  match mpc s with
  | MReturned => true
  | _ => false
  end.

(** ** Some runs of the program *)

(** The key is pressed while the first frame is on the sink. *)
Definition keypress_events : list event :=
  [WorkingWritten Completed;
   Spinner (Spin.LoopResume Completed);
   KeyRead Completed;
   KeyAwaited;
   Spinner (Spin.CancelWritten 0 Completed);
   DoneAwaited].

(** The read of the key fails. *)
Definition failed_read_events : list event :=
  [WorkingWritten Completed;
   Spinner (Spin.LoopResume Completed);
   KeyRead (Failed (ErrEnv 5));
   KeyAwaited].

(** The byte arrays the program writes: the text of line 136, the
    sequences that hide and show the cursor, the cleanup sequence and the
    frames. *)
Definition written (b : list Z) : Prop :=
  b = WORKING \/ b = SHOW \/ b = Spin.HIDE \/ b = Spin.CLEANUP \/
  exists i, b = Spin.frame_at i.

(** The key is pressed, and the cleanup write of the call of [cancel] that
    follows is rejected. *)
Definition rejected_cleanup_events : list event :=
  [WorkingWritten Completed;
   Spinner (Spin.LoopResume Completed);
   KeyRead Completed;
   KeyAwaited;
   Spinner (Spin.CancelWritten 0 (Failed (ErrEnv 9)))].

(** A terminal, not in raw mode. *)
Definition terminal_stdin : stdin := {| raw := false; faults := [] |}.

(** A stdin that is no terminal: the first [setRaw] throws. *)
Definition piped_stdin : stdin := {| raw := false; faults := [Some (ErrEnv 25)] |}.

End Program.

Example frame0 : nth 0 Text.ALL_BRAILLE_FRAMES [] = [27; 91; 49; 68; 0xE2; 0xA0; 0x80].
Proof. reflexivity. Qed.

Example cleanup_bytes :
  Spin.CLEANUP = [27; 91; 49; 68; 32; 27; 91; 49; 68; 27; 91; 63; 50; 53; 104].
Proof. reflexivity. Qed.

Example first_tick :
  option_map snd (Spin.trace_of Spin.line98 None
                    [Spin.LoopResume Completed; Spin.LoopResume Completed;
                     Spin.LoopResume Completed; Spin.React]) =
  Some [EWrite Spin.HIDE; EWrite (Spin.frame_at 0); ESleep 500].
Proof. reflexivity. Qed.

Example keypress_run :
  option_map snd
    (Program.trace_of {| Program.raw := false; Program.faults := [] |}
       [Program.WorkingWritten Completed;
        Program.Spinner (Spin.LoopResume Completed);
        Program.KeyRead Completed;
        Program.KeyAwaited;
        Program.Spinner (Spin.CancelWritten 0 Completed);
        Program.DoneAwaited]) =
  Some [EWrite Program.WORKING; ESetRaw true; EWrite Spin.HIDE; ESetRaw true; ERead;
        EWrite (Spin.frame_at 0); ESetRaw false; EWrite Spin.CLEANUP;
        EWrite Program.SHOW; ELog "Done!"%string].
Proof. reflexivity. Qed.

(** * Properties *)

Import Spin.

(** Case analysis of a step that went through. *)
Ltac step_cases H :=
  unfold Spin.step, Spin.resume_loop, Spin.then_, Spin.internalPromise,
    Spin.next_frame, Spin.while_head, Spin.enter_frame in H;
  repeat match type of H with
         | context [match ?x with _ => _ end] =>
             lazymatch x with
             | context [match _ with _ => _ end] => fail
             | _ => destruct x eqn:?; cbv beta iota in H; try discriminate H
             end
         end;
  inversion H; subst; clear H.

(** Case analysis of a step of the program that went through. *)
Ltac program_cases H :=
  unfold Program.step, Program.main_try, Program.wfk_call, Program.wfk_resume,
    Program.wfk_finally, Program.setRaw, Program.main_finally in H;
  cbn [Spin.step Spin.spin] in H;
  repeat match type of H with
         | context [match ?x with _ => _ end] =>
             lazymatch x with
             | context [match _ with _ => _ end] => fail
             | _ => destruct x eqn:?; cbv beta iota in H; try discriminate H
             end
         end;
  inversion H; subst; clear H.

(** ** The frame table *)

Lemma cursor_left_bytes : Text.TextEncoder_encode Text.ANSI_CURSOR_LEFT = [27; 91; 49; 68].
Proof. reflexivity. Qed.

Lemma encode_split (char : Text.jsstring) :
  Text.encode char =
  Text.TextEncoder_encode Text.ANSI_CURSOR_LEFT ++ Text.TextEncoder_encode char.
Proof.
  unfold Text.encode, Text.join, Text.TextEncoder_encode. cbn [concat].
  rewrite app_nil_r. apply flat_map_app.
Qed.

Lemma braille_chars_length : length Text.ALL_BRAILLE_CHARS = 256%nat.
Proof.
  unfold Text.ALL_BRAILLE_CHARS, Text.Array_from.
  rewrite length_map, length_seq. reflexivity.
Qed.

Lemma braille_frames_length : length Text.ALL_BRAILLE_FRAMES = 256%nat.
Proof. unfold Text.ALL_BRAILLE_FRAMES. rewrite length_map. apply braille_chars_length. Qed.

(** C7. The frame table has exactly 256 entries; entry [i] is the encoding
    of the cursor-left sequence ESC [ 1 D followed by the UTF-8 encoding of
    the code point U+2800 + i, for i = 0, ..., 255 in this order; those
    three bytes are E2, A0 + i / 64, 80 + i mod 64, and decode back to the
    code point. *)
Theorem C7_frame_table :
  length Text.ALL_BRAILLE_FRAMES = 256%nat /\
  Text.ALL_BRAILLE_CHARS = map (fun i => [0x2800 + Z.of_nat i]) (seq 0 256) /\
  0x2800 + Z.of_nat 255 = 0x28FF /\
  Text.ALL_BRAILLE_FRAMES =
    map (fun i => [27; 91; 49; 68] ++ Text.utf8 (0x2800 + Z.of_nat i)) (seq 0 256) /\
  map (fun i => Text.utf8 (0x2800 + Z.of_nat i)) (seq 0 256) =
    map (fun i => [0xE2; 0xA0 + Z.of_nat i / 64; 0x80 + Z.of_nat i mod 64]) (seq 0 256) /\
  map (fun f => match skipn 4 f with
                | [b0; b1; b2] => Text.utf8_decode3 b0 b1 b2
                | _ => None
                end) Text.ALL_BRAILLE_FRAMES =
    map (fun i => Some (0x2800 + Z.of_nat i)) (seq 0 256).
Proof.
  split; [apply braille_frames_length|].
  split; [reflexivity|].
  split; [reflexivity|].
  split.
  - unfold Text.ALL_BRAILLE_FRAMES, Text.ALL_BRAILLE_CHARS, Text.Array_from.
    rewrite map_map. apply map_ext. intros i.
    rewrite encode_split, cursor_left_bytes.
    unfold Text.TextEncoder_encode, Text.fromCodePoint. simpl flat_map.
    now rewrite app_nil_r.
  - split; vm_compute; reflexivity.
Qed.

(** ** The completion signal *)

Lemma apply_all_snoc (cs : list Deferred.call) (c : Deferred.call) (d : Deferred.t) :
  Deferred.apply_all (cs ++ [c]) d = Deferred.apply c (Deferred.apply_all cs d).
Proof. unfold Deferred.apply_all. now rewrite fold_left_app. Qed.

Lemma apply_promise (c : Deferred.call) (d : Deferred.t) :
  Deferred.promise (Deferred.apply c d) =
  if is_pending (Deferred.promise d) then Deferred.first_outcome [c]
  else Deferred.promise d.
Proof. destruct c, d as [[| |] ? ?]; reflexivity. Qed.

Lemma apply_flags (c : Deferred.call) (d : Deferred.t) :
  Deferred.isResolved (Deferred.apply c d) = Deferred.isResolved d || Deferred.is_Resolve c /\
  Deferred.isRejected (Deferred.apply c d) = Deferred.isRejected d || Deferred.is_Reject c.
Proof.
  destruct c, d as [p a b]; cbn; split;
    auto using orb_true_r, orb_false_r with bool;
    now rewrite ?orb_true_r, ?orb_false_r.
Qed.

Lemma apply_all_promise (cs : list Deferred.call) :
  Deferred.promise (Deferred.apply_all cs Deferred.new) = Deferred.first_outcome cs.
Proof.
  induction cs as [|c cs IH] using rev_ind; [reflexivity|].
  rewrite apply_all_snoc, apply_promise, IH.
  destruct cs as [|[v|r] cs]; reflexivity.
Qed.

Lemma apply_all_flags (cs : list Deferred.call) :
  Deferred.isResolved (Deferred.apply_all cs Deferred.new) = existsb Deferred.is_Resolve cs /\
  Deferred.isRejected (Deferred.apply_all cs Deferred.new) = existsb Deferred.is_Reject cs.
Proof.
  induction cs as [|c cs [IH1 IH2]] using rev_ind; [split; reflexivity|].
  rewrite apply_all_snoc, !existsb_app. cbn [existsb].
  destruct (apply_flags c (Deferred.apply_all cs Deferred.new)) as [-> ->].
  rewrite IH1, IH2, !orb_false_r. split; reflexivity.
Qed.

(** C2, as the code has it.  The promise of a deferred settles at most
    once: the first call of [resolve] or [reject] decides it and every later
    call leaves it as it is.  The flags record the calls, not the outcome:
    [isResolved] holds exactly when [resolve] was called, [isRejected]
    exactly when [reject] was called, [isDone] when either was, and a call
    only ever raises a flag. *)
Theorem C2_promise_settles_once_flags_record_calls :
  (forall cs : list Deferred.call,
     let d := Deferred.apply_all cs Deferred.new in
     Deferred.promise d = Deferred.first_outcome cs /\
     Deferred.isResolved d = existsb Deferred.is_Resolve cs /\
     Deferred.isRejected d = existsb Deferred.is_Reject cs /\
     Deferred.isDone d = existsb Deferred.is_Resolve cs || existsb Deferred.is_Reject cs) /\
  (forall (c : Deferred.call) (d : Deferred.t),
     Deferred.promise (Deferred.apply c d) =
       (if is_pending (Deferred.promise d) then Deferred.first_outcome [c]
        else Deferred.promise d) /\
     Deferred.isResolved (Deferred.apply c d) = Deferred.isResolved d || Deferred.is_Resolve c /\
     Deferred.isRejected (Deferred.apply c d) = Deferred.isRejected d || Deferred.is_Reject c).
Proof.
  split.
  - intros cs d. subst d.
    destruct (apply_all_flags cs) as [H1 H2].
    repeat split; auto using apply_all_promise.
    unfold Deferred.isDone. unfold Deferred.isResolved, Deferred.isRejected in *.
    now rewrite H1, H2.
  - intros c d. split; [apply apply_promise | apply apply_flags].
Qed.

(** C2, as the claim states it, fails: after [resolve()] then [reject(e)]
    the deferred reports both [isResolved] and [isRejected], and the call of
    [reject] on the settled deferred changed what [isRejected] reports. *)
Lemma C2_both_flags_counterexample :
  Deferred.isRejected (Deferred.resolve VUndefined Deferred.new) = false /\
  Deferred.isResolved
    (Deferred.reject (VError ErrTest) (Deferred.resolve VUndefined Deferred.new)) = true /\
  Deferred.isRejected
    (Deferred.reject (VError ErrTest) (Deferred.resolve VUndefined Deferred.new)) = true /\
  Deferred.promise
    (Deferred.reject (VError ErrTest) (Deferred.resolve VUndefined Deferred.new))
  = Fulfilled VUndefined.
Proof. repeat split. Qed.

(** ** Runs of the spinner *)

Section SpinRuns.

Variable tail : option error.

Lemma run_snoc (evs : list event) (ev : event) (s : state) :
  run tail (evs ++ [ev]) s =
  match run tail evs s with
  | Some (s1, out1) =>
      match step tail ev s1 with
      | Some (s2, out2) => Some (s2, out1 ++ out2)
      | None => None
      end
  | None => None
  end.
Proof.
  revert s. induction evs as [|e evs IH]; intros s; cbn [run app].
  - destruct (step tail ev s) as [[s2 out2]|]; [|reflexivity].
    now rewrite app_nil_r.
  - destruct (step tail e s) as [[s1 out1]|]; [|reflexivity].
    rewrite IH. destruct (run tail evs s1) as [[s2 out2]|]; [|reflexivity].
    destruct (step tail ev s2) as [[s3 out3]|]; [|reflexivity].
    now rewrite app_assoc.
Qed.

(** A property of a state and the effects so far that every step keeps
    holds along every run. *)
Lemma run_invariant (P : state -> list effect -> Prop) :
  (forall ev s out s' out',
      P s out -> step tail ev s = Some (s', out') -> P s' (out ++ out')) ->
  forall evs s out0 s' out,
    P s out0 -> run tail evs s = Some (s', out) -> P s' (out0 ++ out).
Proof.
  intros Hstep evs. induction evs as [|ev evs IH]; intros s out0 s' out HP Hrun.
  - cbn in Hrun. inversion Hrun; subst. now rewrite app_nil_r.
  - cbn [run] in Hrun.
    destruct (step tail ev s) as [[s1 out1]|] eqn:Hs; [|discriminate].
    destruct (run tail evs s1) as [[s2 out2]|] eqn:Hr; [|discriminate].
    inversion Hrun; subst. rewrite app_assoc.
    eapply IH; [|exact Hr]. eapply Hstep; eassumption.
Qed.

Lemma trace_invariant (P : state -> list effect -> Prop) (arg : option Z) :
  P (fst (spin arg)) (snd (spin arg)) ->
  (forall ev s out s' out',
      P s out -> step tail ev s = Some (s', out') -> P s' (out ++ out')) ->
  forall evs s out, trace_of tail arg evs = Some (s, out) -> P s out.
Proof.
  intros H0 Hstep evs s out Ht. unfold trace_of in Ht.
  destruct (run tail evs (fst (spin arg))) as [[s1 out1]|] eqn:Hr; [|discriminate].
  inversion Ht; subst. exact (run_invariant P Hstep evs _ _ _ _ H0 Hr).
Qed.

Lemma resolve_unrejected (v : value) (d : Deferred.t) :
  unrejected d -> unrejected (Deferred.resolve v d).
Proof.
  intros [Hf Hp]. split; [exact Hf|]. intros r. cbn.
  destruct (Deferred.promise d) eqn:E; cbn; try discriminate.
  intros [= ->]. now apply (Hp r).
Qed.

Lemma step_unrejected (ev : event) (s s' : state) (out : list effect) :
  unrejected (done s) -> step tail ev s = Some (s', out) -> unrejected (done s').
Proof.
  intros Hu H. step_cases H; cbn; auto using resolve_unrejected.
Qed.

Lemma reachable_unrejected (arg : option Z) (evs : list event) (s : state) (out : list effect) :
  trace_of tail arg evs = Some (s, out) -> unrejected (done s).
Proof.
  apply (trace_invariant (fun s _ => unrejected (done s))).
  - split; [reflexivity|]. intros r. discriminate.
  - intros ev s0 _ s1 out1. apply step_unrejected.
Qed.

Lemma step_untouched (ev : event) (s s' : state) (out : list effect) :
  untouched s -> step tail ev s = Some (s', out) -> untouched s'.
Proof.
  unfold untouched. intros Hu H.
  assert (Hins : forall k pc, <[k:=pc]> (calls s) = [] -> calls s = []).
  { intros k pc E. apply (f_equal length) in E. rewrite length_insert in E.
    now destruct (calls s). }
  step_cases H; unfold then_, internalPromise in *;
    cbn [calls reacted done loop set_loop set_done set_reacted set_calls set_cancelled];
    intros Hc;
    try (now destruct (calls s));
    try (apply Hins in Hc;
         match goal with E : calls s !! _ = Some _ |- _ => rewrite Hc in E; discriminate E end);
    specialize (Hu Hc);
    repeat match goal with
           | E : reacted s = _ |- _ => rewrite E in *; clear E
           | E : loop s = _ |- _ => rewrite E in *; clear E
           end;
    try discriminate Hu; try congruence;
    destruct (reacted s); try discriminate Hu; try congruence.
Qed.

Lemma reachable_untouched (arg : option Z) (evs : list event) (s : state) (out : list effect) :
  trace_of tail arg evs = Some (s, out) -> untouched s.
Proof.
  apply (trace_invariant (fun s _ => untouched s)).
  - intros _. reflexivity.
  - intros ev s0 _ s1 out1. apply step_untouched.
Qed.

Lemma resolve_fulfilled (v : value) (d : Deferred.t) :
  unrejected d -> exists w, Deferred.promise (Deferred.resolve v d) = Fulfilled w.
Proof.
  intros [_ Hp]. cbn. destruct (Deferred.promise d) as [|w|r] eqn:E; cbn; eauto.
  now destruct (Hp r).
Qed.

Lemma insert_last (l : list cancel_pc) (x y : cancel_pc) :
  <[length l := y]> (l ++ [x]) = l ++ [y].
Proof.
  rewrite insert_app_r_alt by lia. now rewrite Nat.sub_diag.
Qed.

Lemma lookup_last (l : list cancel_pc) (x : cancel_pc) :
  (l ++ [x]) !! length l = Some x.
Proof. now apply list_lookup_middle. Qed.

Lemma run_cancel (s : state) :
  unrejected (done s) ->
  run tail (cancel_events (length (calls s))) s = Some (after_cancel s, [EWrite CLEANUP]).
Proof.
  intros Hu. destruct (resolve_fulfilled VUndefined _ Hu) as [w Hw].
  unfold cancel_events, run, step.
  cbn [calls done set_calls set_done set_cancelled].
  rewrite lookup_last. cbn [calls done set_calls set_done set_cancelled].
  rewrite insert_last, lookup_last, Hw, insert_last.
  reflexivity.
Qed.

(** C1, as the code has it.  A failure delivered to the loop while it
    awaits a frame write or the timer makes [spinInternal] throw it; the
    reaction of line 119 then calls [done.resolve] with it.  So when [cancel]
    was not called, [done] stays pending until the reaction runs and is
    fulfilled, with the failure as its value, from then on; and in no run is
    [done] ever rejected. *)
Theorem C1_loop_failure_fulfils_done
    (arg : option Z) (evs : list event) (s : state) (out : list effect) :
  trace_of tail arg evs = Some (s, out) ->
  Deferred.isRejected (done s) = false /\
  (forall r, Deferred.promise (done s) <> Rejected r) /\
  (forall i e, loop s = LAwaitWrite i \/ loop s = LAwaitSleep i ->
     step tail (LoopResume (Failed e)) s = Some (set_loop (LThrown e) s, [])) /\
  (forall e, loop s = LThrown e -> calls s = [] ->
     if reacted s
     then Deferred.promise (done s) = Fulfilled (VError e)
     else Deferred.promise (done s) = Pending /\
          exists s', step tail React s = Some (s', []) /\
                     Deferred.promise (done s') = Fulfilled (VError e) /\
                     Deferred.isResolved (done s') = true /\
                     Deferred.isRejected (done s') = false).
Proof.
  intros Ht.
  destruct (reachable_unrejected _ _ _ _ Ht) as [Hf Hp].
  pose proof (reachable_untouched _ _ _ _ Ht) as Hu.
  repeat split; auto.
  - intros i e [E|E]; unfold step, resume_loop; now rewrite E.
  - intros e He Hc. specialize (Hu Hc).
    unfold step, then_, internalPromise in *. rewrite He in *.
    destruct (reacted s).
    + injection Hu as <-. reflexivity.
    + rewrite Hu. split; [reflexivity|]. eexists. repeat split.
Qed.

(** C3, as the code has it.  Two calls of [cancel] in sequence both return
    normally and leave [done] fulfilled with the same value, and each of
    them writes the cleanup sequence: it is emitted once per call. *)
Theorem C3_stop_twice_same_outcome_cleanup_per_call
    (arg : option Z) (evs : list event) (s : state) (out : list effect) :
  trace_of tail arg evs = Some (s, out) ->
  let k := length (calls s) in
  exists s1 s2 v,
    run tail (cancel_events k) s = Some (s1, [EWrite CLEANUP]) /\
    run tail (cancel_events (S k)) s1 = Some (s2, [EWrite CLEANUP]) /\
    calls s1 !! k = Some CReturned /\
    calls s2 !! k = Some CReturned /\
    calls s2 !! S k = Some CReturned /\
    Deferred.promise (done s1) = Fulfilled v /\
    Deferred.promise (done s2) = Fulfilled v.
Proof.
  intros Ht k. pose proof (reachable_unrejected _ _ _ _ Ht) as Hu.
  destruct (resolve_fulfilled VUndefined _ Hu) as [v Hv].
  assert (Hu1 : unrejected (done (after_cancel s))) by now apply resolve_unrejected.
  exists (after_cancel s), (after_cancel (after_cancel s)), v.
  assert (Hk : S k = length (calls (after_cancel s))).
  { cbn. rewrite length_app. cbn. subst k. lia. }
  split; [now apply run_cancel|].
  split; [rewrite Hk; now apply run_cancel|].
  cbn [calls after_cancel done]. subst k.
  split; [apply lookup_last|].
  split; [rewrite lookup_app_l by (rewrite length_app; cbn; lia); apply lookup_last|].
  split; [|split; [exact Hv|cbn; cbn in Hv; now rewrite Hv]].
  replace (S (length (calls s))) with (length (calls s ++ [CReturned]))
    by (rewrite length_app; cbn; lia).
  apply lookup_last.
Qed.

End SpinRuns.

(** C1, as the claim states it, fails: the write of the first frame fails
    before [cancel] is ever called, and [done] ends up fulfilled, with the
    failure as its value, not rejected. *)
Lemma C1_failure_becomes_success_counterexample :
  exists s out,
    Spin.trace_of Spin.line98 None
      [Spin.LoopResume Completed; Spin.LoopResume (Failed (ErrEnv 1)); Spin.React]
    = Some (s, out) /\
    Spin.loop s = Spin.LThrown (ErrEnv 1) /\
    Spin.calls s = [] /\
    Spin.cancelled s = false /\
    Deferred.promise (Spin.done s) = Fulfilled (VError (ErrEnv 1)) /\
    Deferred.promise (Spin.done s) <> Rejected (VError (ErrEnv 1)) /\
    Deferred.isResolved (Spin.done s) = true /\
    Deferred.isRejected (Spin.done s) = false.
Proof.
  eexists. eexists. split; [reflexivity|]. cbn. repeat split. discriminate.
Qed.

(** C3, as the claim states it, fails: two calls of [cancel] in sequence
    put the cleanup sequence on the sink twice. *)
Lemma C3_cleanup_emitted_twice_counterexample :
  exists s out,
    Spin.trace_of Spin.line98 None (cancel_events 0 ++ cancel_events 1) = Some (s, out) /\
    Spin.calls s = [Spin.CReturned; Spin.CReturned] /\
    Spin.writes out = [Spin.HIDE; Spin.CLEANUP; Spin.CLEANUP] /\
    count_occ (List.list_eq_dec Z.eq_dec) (Spin.writes out) Spin.CLEANUP = 2%nat.
Proof.
  eexists. eexists. split; [reflexivity|]. repeat split.
Qed.

(** ** The cancelled flag and the stop sequence *)

Section Cancellation.

Variable tail : option error.

Lemma writes_app (out out' : list effect) : writes (out ++ out') = writes out ++ writes out'.
Proof. apply flat_map_app. Qed.

Lemma step_flag (ev : event) (s s' : state) (out : list effect) :
  step tail ev s = Some (s', out) ->
  (cancelled s = true -> cancelled s' = true) /\
  (cancelled s' <> cancelled s -> ev = CallCancel) /\
  (ev = CallCancel -> cancelled s' = true /\ out = [EWrite CLEANUP]).
Proof.
  intros H. step_cases H; cbn; repeat split; intros; congruence.
Qed.

Lemma loop_step_when_cancelled (r : io) (s s' : state) (out : list effect) :
  step tail (LoopResume r) s = Some (s', out) ->
  cancelled s = true ->
  writes out = [] /\
  (r = Completed ->
   loop s = LAwaitHide \/ (tail = None /\ exists i, loop s = LAwaitSleep i) ->
   loop s' = LReturned /\ out = []).
Proof.
  intros H Hc. step_cases H; cbn; (split; [try reflexivity; congruence|]);
    intros Hr [E|[E1 [j E2]]]; try congruence; auto.
Qed.

Lemma loop_step_writes (r : io) (s s' : state) (out : list effect) (b : list Z) :
  step tail (LoopResume r) s = Some (s', out) ->
  In (EWrite b) out ->
  cancelled s = false /\ exists i, b = frame_at i /\ loop s' = LAwaitWrite i.
Proof.
  intros H Hin. step_cases H; cbn in Hin; intuition (try discriminate);
    match goal with E : EWrite _ = EWrite _ |- _ => injection E as <- end; eauto.
Qed.

Lemma cleanup_not_frame : is_frame CLEANUP = false.
Proof. vm_compute. reflexivity. Qed.

Lemma hide_not_frame : is_frame HIDE = false.
Proof. vm_compute. reflexivity. Qed.

Lemma run_after_cancelled (evs : list event) (s s' : state) (out : list effect) :
  cancelled s = true ->
  run tail evs s = Some (s', out) ->
  cancelled s' = true /\ forall b, In (EWrite b) out -> b = CLEANUP.
Proof.
  intros Hc Hr.
  apply (run_invariant tail
           (fun s out => cancelled s = true /\ forall b, In (EWrite b) out -> b = CLEANUP)
           ) with (evs := evs) (s := s) (out0 := []) (s' := s') (out := out); auto.
  - clear. intros ev s out s' out' [Hc Hw] Hs. split.
    + destruct (step_flag _ _ _ _ Hs) as (H1 & _). auto.
    + intros b Hin. apply in_app_or in Hin as [Hin|Hin]; [now apply Hw|].
      destruct ev.
      * destruct (loop_step_writes _ _ _ _ _ Hs Hin) as [E _]. congruence.
      * step_cases Hs; destruct Hin.
      * step_cases Hs. destruct Hin as [[= <-]|[]]. reflexivity.
      * step_cases Hs; destruct Hin.
      * step_cases Hs; destruct Hin.
  - split; [exact Hc|]. intros b [].
Qed.

(** C5. Each step of the loop that reaches line 96 has found the flag
    false, and a step of the loop that finds the flag true at a loop head
    leaves the loop without writing.  Only a call of [cancel] changes the flag,
    and only to true: once it is set it stays set, and from then on no run
    writes anything but cleanup sequences, which are not frames. *)
Theorem C5_flag_checked_before_each_frame
    (evs : list event) (s s' : state) (out : list effect) :
  run tail evs s = Some (s', out) ->
  (cancelled s = true ->
   cancelled s' = true /\
   (forall b, In (EWrite b) out -> b = CLEANUP /\ is_frame b = false)) /\
  (forall ev t t' o, step tail ev t = Some (t', o) ->
     (cancelled t = true -> cancelled t' = true) /\
     (cancelled t' <> cancelled t -> ev = CallCancel) /\
     (ev = CallCancel -> cancelled t' = true) /\
     (forall r b, ev = LoopResume r -> In (EWrite b) o ->
        cancelled t = false /\ exists i, b = frame_at i) /\
     (forall r, ev = LoopResume r -> cancelled t = true ->
        writes o = [] /\
        (r = Completed ->
         loop t = LAwaitHide \/ (tail = None /\ exists i, loop t = LAwaitSleep i) ->
         loop t' = LReturned /\ o = []))).
Proof.
  intros Hr. split.
  - intros Hc. destruct (run_after_cancelled _ _ _ _ Hc Hr) as [Hc' Hw].
    split; [exact Hc'|]. intros b Hin. rewrite (Hw b Hin).
    split; [reflexivity | apply cleanup_not_frame].
  - intros ev t t' o Hs.
    destruct (step_flag _ _ _ _ Hs) as (H1 & H2 & H3).
    split; [exact H1|]. split; [exact H2|].
    split; [intros E; now apply H3|].
    split.
    + intros r b -> Hin.
      destruct (loop_step_writes _ _ _ _ _ Hs Hin) as (Hc & i & -> & _). eauto.
    + intros r -> Hc. exact (loop_step_when_cancelled _ _ _ _ Hs Hc).
Qed.

End Cancellation.

Section Stop.

Variable tail : option error.

Lemma lookup_insert_changed (l : list cancel_pc) (k j : nat) (x y : cancel_pc) :
  <[k:=x]> l !! j = Some y -> l !! j <> Some y -> j = k /\ x = y.
Proof.
  intros H Hn. destruct (decide (k = j)) as [->|Hne].
  - split; [reflexivity|].
    destruct (decide (j < length l)%nat) as [Hlt|Hge].
    + rewrite list_lookup_insert_eq in H by exact Hlt. congruence.
    + rewrite list_insert_ge in H by lia. contradiction.
  - rewrite list_lookup_insert_ne in H by exact Hne. contradiction.
Qed.

Lemma lookup_snoc_changed (l : list cancel_pc) (j : nat) (x y : cancel_pc) :
  (l ++ [x]) !! j = Some y -> l !! j <> Some y -> j = length l /\ x = y.
Proof.
  intros H Hn. destruct (decide (j < length l)%nat) as [Hlt|Hge].
  - rewrite lookup_app_l in H by exact Hlt. contradiction.
  - rewrite lookup_app_r in H by lia.
    destruct (j - length l)%nat as [|n] eqn:E; cbn in H; [|discriminate].
    split; [lia | congruence].
Qed.

(** How an activation of [cancel] moves: it comes into being at its call,
    which sets the flag and issues the cleanup write; it reaches line 115 only
    from the completed write, by calling [done.resolve]; it returns only from
    line 115, with [done] fulfilled. *)
Lemma cancel_progress (ev : event) (j : nat) (t t' : state) (o : list effect) :
  step tail ev t = Some (t', o) ->
  (calls t' !! j = Some CAwaitWrite -> calls t !! j <> Some CAwaitWrite ->
     ev = CallCancel /\ j = length (calls t) /\ cancelled t' = true /\
     o = [EWrite CLEANUP] /\ done t' = done t) /\
  (calls t' !! j = Some CAwaitDone -> calls t !! j <> Some CAwaitDone ->
     ev = CancelWritten j Completed /\ calls t !! j = Some CAwaitWrite /\
     done t' = Deferred.resolve VUndefined (done t) /\ o = []) /\
  (calls t' !! j = Some CReturned -> calls t !! j <> Some CReturned ->
     ev = CancelDone j /\ calls t !! j = Some CAwaitDone /\
     (exists v, Deferred.promise (done t) = Fulfilled v) /\ o = []).
Proof.
  intros H.
  step_cases H; cbn [calls done cancelled set_loop set_done set_reacted set_calls set_cancelled];
    (split; [|split]); intros H1 H2; try contradiction;
    try (destruct (lookup_snoc_changed _ _ _ _ H1 H2) as [-> E]; try discriminate E);
    try (destruct (lookup_insert_changed _ _ _ _ _ H1 H2) as [-> E]; try discriminate E);
    eauto.
Qed.

(** C6. A call of [cancel] sets the flag and issues one write, of the
    bytes ESC [ 1 D, space, ESC [ 1 D, ESC [ ? 2 5 h, before it touches
    [done]; when the write has completed it calls [done.resolve], which
    leaves [done] fulfilled, and suspends on [done.promise]; it returns from
    there, and from nowhere else. *)
Theorem C6_stop_sets_flag_cleans_up_fulfils_then_awaits
    (arg : option Z) (evs : list event) (s : state) (out : list effect) :
  trace_of tail arg evs = Some (s, out) ->
  let k := length (calls s) in
  CLEANUP = [27; 91; 49; 68; 32; 27; 91; 49; 68; 27; 91; 63; 50; 53; 104] /\
  (exists s1 s2 s3 v,
     step tail CallCancel s = Some (s1, [EWrite CLEANUP]) /\
     cancelled s1 = true /\ done s1 = done s /\ calls s1 !! k = Some CAwaitWrite /\
     step tail (CancelWritten k Completed) s1 = Some (s2, []) /\
     done s2 = Deferred.resolve VUndefined (done s) /\
     Deferred.isResolved (done s2) = true /\
     Deferred.promise (done s2) = Fulfilled v /\
     calls s2 !! k = Some CAwaitDone /\
     step tail (CancelDone k) s2 = Some (s3, []) /\
     calls s3 !! k = Some CReturned /\
     Deferred.promise (done s3) = Fulfilled v) /\
  (forall ev j t t' o, step tail ev t = Some (t', o) ->
     (calls t' !! j = Some CAwaitDone -> calls t !! j <> Some CAwaitDone ->
        ev = CancelWritten j Completed /\ calls t !! j = Some CAwaitWrite /\
        done t' = Deferred.resolve VUndefined (done t) /\ o = []) /\
     (calls t' !! j = Some CReturned -> calls t !! j <> Some CReturned ->
        ev = CancelDone j /\ calls t !! j = Some CAwaitDone /\
        (exists v, Deferred.promise (done t) = Fulfilled v) /\ o = [])).
Proof.
  intros Ht k. split; [reflexivity|]. split.
  - pose proof (reachable_unrejected _ _ _ _ _ Ht) as Hu.
    destruct (resolve_fulfilled VUndefined _ Hu) as [v Hv].
    do 3 eexists. exists v.
    split; [reflexivity|].
    cbn [calls done cancelled set_calls set_cancelled].
    split; [reflexivity|]. split; [reflexivity|].
    split; [apply lookup_last|].
    unfold step at 1. cbn [calls done set_calls set_cancelled].
    subst k. rewrite lookup_last.
    split; [reflexivity|].
    cbn [calls done cancelled set_calls set_cancelled set_done].
    split; [reflexivity|]. split; [reflexivity|]. split; [exact Hv|].
    rewrite insert_last. split; [apply lookup_last|].
    unfold step. cbn [calls done set_calls set_cancelled set_done].
    rewrite lookup_last, Hv, insert_last.
    split; [reflexivity|].
    cbn [calls done set_calls]. split; [apply lookup_last | exact Hv].
  - intros ev j t t' o Hs.
    destruct (cancel_progress ev j _ _ _ Hs) as (_ & H2 & H3). split; assumption.
Qed.

(** C9. Called without an argument, [spin] takes 500 for [ms]: every timer
    the loop then starts is one of 500 milliseconds.  Called with an
    argument, it takes the argument. *)
Theorem C9_default_interval_is_500
    (evs : list event) (s : state) (out : list effect) :
  trace_of tail None evs = Some (s, out) ->
  ms (fst (spin None)) = 500 /\
  (forall m, ms (fst (spin (Some m))) = m) /\
  ms s = 500 /\
  (forall d, In (ESleep d) out -> d = 500).
Proof.
  intros Ht. split; [reflexivity|]. split; [reflexivity|].
  revert Ht.
  apply (trace_invariant tail
           (fun s out => ms s = 500 /\ forall d, In (ESleep d) out -> d = 500)).
  - split; [reflexivity|]. intros d [E|[]]. discriminate E.
  - clear. intros ev s out s' out' [Hm Hd] Hs.
    assert (Hstep : ms s' = ms s /\ forall d, In (ESleep d) out' -> d = ms s).
    { step_cases Hs; cbn; split; try reflexivity; intros d Hin;
        repeat (destruct Hin as [Hin|Hin]); try discriminate Hin; try contradiction;
        now injection Hin as <-. }
    destruct Hstep as [E Hd']. split; [congruence|].
    intros d Hin. apply in_app_or in Hin as [Hin|Hin]; [auto|].
    rewrite <- Hm. auto.
Qed.

End Stop.

(** ** The animation loop *)

Lemma frame_writes_app (out out' : list effect) :
  frame_writes (out ++ out') = frame_writes out ++ frame_writes out'.
Proof. apply flat_map_app. Qed.

Lemma frame_at_is_frame (i : nat) : (i < 256)%nat -> is_frame (frame_at i) = true.
Proof.
  intros Hi. unfold is_frame. apply existsb_exists. exists (frame_at i). split.
  - apply nth_In. now rewrite braille_frames_length.
  - now destruct (decide (frame_at i = frame_at i)).
Qed.

Lemma step_frames (ev : event) (s s' : state) (out' : list effect) :
  step line98 ev s = Some (s', out') ->
  (loop s' = loop s /\ frame_writes out' = []) \/
  (loop s = LAwaitHide /\ loop s' = LAwaitWrite 0 /\ frame_writes out' = [frame_at 0]) \/
  (past_write (loop s') /\ frame_writes out' = []).
Proof.
  intros H.
  assert (F0 : is_frame (frame_at 0) = true) by (apply frame_at_is_frame; lia).
  step_cases H;
    cbn [loop set_loop set_done set_reacted set_calls set_cancelled frame_writes flat_map
         past_write app];
    rewrite ?cleanup_not_frame, ?F0; cbn [app]; auto;
    match goal with E : line98 = None |- _ => discriminate E end.
Qed.

Lemma at_most_first_frame_weaken (s : state) (out : list effect) :
  at_most_first_frame s out -> frame_writes out = [] \/ frame_writes out = [frame_at 0].
Proof. unfold at_most_first_frame. destruct (loop s); intuition auto. Qed.

Lemma step_at_most_first_frame (ev : event) (s s' : state) (out out' : list effect) :
  at_most_first_frame s out ->
  step line98 ev s = Some (s', out') ->
  at_most_first_frame s' (out ++ out').
Proof.
  intros Hinv H. pose proof (at_most_first_frame_weaken _ _ Hinv) as Hw.
  unfold at_most_first_frame in *. rewrite frame_writes_app.
  destruct (step_frames _ _ _ _ H) as [[E ->]|[(E1 & E2 & ->)|[Hp ->]]].
  - rewrite E, app_nil_r. exact Hinv.
  - rewrite E1 in Hinv. rewrite E2, Hinv. split; reflexivity.
  - rewrite app_nil_r. destruct (loop s'); cbn in Hp; try contradiction; exact Hw.
Qed.

(** C4, on the code.  Without any cancellation and with every write and
    timer completing, the loop writes the hide-cursor sequence and the first
    frame, waits out one interval, and throws at line 98.  In no run at all are
    two frames written, and the second frame of the table never is. *)
Theorem C4_loop_throws_after_first_frame (arg : option Z) :
  (exists s,
     trace_of line98 arg
       [LoopResume Completed; LoopResume Completed; LoopResume Completed]
     = Some (s, [EWrite HIDE; EWrite (frame_at 0); ESleep (default 500 arg)]) /\
     loop s = LThrown ErrTest /\ cancelled s = false) /\
  (forall evs s out,
     trace_of line98 arg evs = Some (s, out) ->
     (length (frame_writes out) <= 1)%nat /\ ~ In (EWrite (frame_at 1)) out).
Proof.
  split.
  - eexists. repeat split.
  - intros evs s out Ht.
    assert (Hinv : at_most_first_frame s out).
    { revert Ht. apply (trace_invariant line98 at_most_first_frame).
      - unfold at_most_first_frame. cbn [loop fst snd spin frame_writes flat_map].
        now rewrite hide_not_frame.
      - intros ev s0 out0 s1 out1. apply step_at_most_first_frame. }
    assert (Hf : frame_writes out = [] \/ frame_writes out = [frame_at 0]).
    { unfold at_most_first_frame in Hinv. destruct (loop s); intuition auto. }
    split.
    + destruct Hf as [-> | ->]; cbn; lia.
    + intros Hin.
      assert (Hin' : In (frame_at 1) (frame_writes out)).
      { unfold frame_writes. apply in_flat_map. exists (EWrite (frame_at 1)).
        split; [exact Hin|]. rewrite frame_at_is_frame by lia. now left. }
      destruct Hf as [E|E]; rewrite E in Hin'; cbn in Hin'; [contradiction|].
      destruct Hin' as [Hin'|[]]. vm_compute in Hin'. discriminate Hin'.
Qed.

Lemma succ_mod_256 (m : nat) :
  (S m mod 256 = if S (m mod 256) <? 256 then S (m mod 256) else 0)%nat.
Proof.
  assert (Hm : (m mod 256 < 256)%nat) by (apply Nat.mod_upper_bound; lia).
  replace (S m) with (1 + m)%nat by lia.
  rewrite Nat.Div0.add_mod by lia.
  change (1 mod 256)%nat with 1%nat.
  destruct (S (m mod 256) <? 256)%nat eqn:E.
  - apply Nat.ltb_lt in E. apply Nat.mod_small. lia.
  - apply Nat.ltb_ge in E. replace (m mod 256)%nat with 255%nat by lia. reflexivity.
Qed.

Lemma tick (s : state) (n : nat) :
  cancelled s = false ->
  loop s = tick_pc n ->
  run None [LoopResume Completed; LoopResume Completed] s =
  Some (set_loop (tick_pc (S n)) s, [EWrite (frame_at (n mod 256)); ESleep (ms s)]).
Proof.
  intros Hc Hl. unfold run, step, resume_loop, next_frame, while_head, enter_frame.
  rewrite Hl, Hc, braille_frames_length.
  destruct n as [|m]; cbn [tick_pc]; [reflexivity|].
  rewrite (succ_mod_256 m).
  destruct (S (m mod 256) <? 256)%nat; reflexivity.
Qed.

Lemma cycle_without_line98 (arg : option Z) (n : nat) :
  trace_of None arg (repeat (LoopResume Completed) (2 * n)) =
  Some (set_loop (tick_pc n) (fst (spin arg)),
        EWrite HIDE :: tick_effects (default 500 arg) n).
Proof.
  unfold trace_of.
  assert (H : run None (repeat (LoopResume Completed) (2 * n)) (fst (spin arg)) =
              Some (set_loop (tick_pc n) (fst (spin arg)),
                    tick_effects (default 500 arg) n)).
  { induction n as [|n IH]; [reflexivity|].
    replace (2 * S n)%nat with (2 * n + 2)%nat by lia.
    rewrite repeat_app. cbn [repeat].
    change [LoopResume Completed; LoopResume Completed]
      with ([LoopResume Completed] ++ [LoopResume Completed]).
    rewrite app_assoc, !run_snoc, IH.
    pose proof (tick (set_loop (tick_pc n) (fst (spin arg))) n eq_refl eq_refl) as Ht.
    cbn [run] in Ht.
    destruct (step None (LoopResume Completed) (set_loop (tick_pc n) (fst (spin arg))))
      as [[s1 o1]|]; [|discriminate Ht].
    destruct (step None (LoopResume Completed) s1) as [[s2 o2]|]; [|discriminate Ht].
    rewrite app_nil_r in Ht. injection Ht as -> Ho.
    unfold tick_effects. rewrite seq_S, flat_map_app. cbn [flat_map Nat.add].
    rewrite app_nil_r, <- app_assoc, Ho. reflexivity. }
  rewrite H. reflexivity.
Qed.

(** In particular a full cycle, in order, and the first frame again after it. *)
Lemma full_cycle_without_line98 (arg : option Z) :
  (exists s out,
     trace_of None arg (repeat (LoopResume Completed) (2 * 256)) = Some (s, out) /\
     frame_writes out = Text.ALL_BRAILLE_FRAMES) /\
  (exists s out,
     trace_of None arg (repeat (LoopResume Completed) (2 * 257)) = Some (s, out) /\
     frame_writes out = Text.ALL_BRAILLE_FRAMES ++ [frame_at 0]).
Proof.
  split; eexists; eexists; (split; [apply cycle_without_line98|]);
    vm_compute; reflexivity.
Qed.

(** ** waitForKeypress *)

(** C10. However [waitForKeypress] ends, the last call it has made on the
    input stream is [setRaw(false)], and it has made it once: after the
    read has completed or failed, and also when [setRaw(true)] itself threw.
    It never ends suspended.  On a stream whose [setRaw] calls go through, the
    stream is out of raw mode at the end and the outcome is that of the read. *)
Theorem C10_waitForKeypress_restores_raw_mode (r : io) (d : Program.stdin) :
  let '(pc, d', out) := Program.waitForKeypress r d in
  pc <> Program.WAwaitRead /\
  last out = Some (ESetRaw false) /\
  count_occ Bool.bool_dec (Program.raw_calls out) false = 1%nat /\
  (Program.faults d = [] ->
   Program.raw d' = false /\
   out = [ESetRaw true; ERead; ESetRaw false] /\
   pc = match r with
        | Completed => Program.WReturned
        | Failed e => Program.WThrown e
        end).
Proof.
  unfold Program.waitForKeypress, Program.wfk_call, Program.wfk_resume,
    Program.wfk_finally, Program.setRaw.
  destruct d as [raw0 [|[e0|] [|[e1|] rest]]]; destruct r as [|e]; cbn;
    repeat split; try discriminate; intros E; discriminate E.
Qed.

(** ** The cursor at the end of the program *)

Lemma feed_all_app (tm : Terminal.t) (a b : list Z) :
  Terminal.feed_all tm (a ++ b) = Terminal.feed_all (Terminal.feed_all tm a) b.
Proof. apply fold_left_app. Qed.

Lemma feed_hide (v : bool) :
  Terminal.feed_all (Terminal.at_rest v) HIDE = Terminal.at_rest false.
Proof. destruct v; reflexivity. Qed.

Lemma feed_show (v : bool) :
  Terminal.feed_all (Terminal.at_rest v) Program.SHOW = Terminal.at_rest true.
Proof. destruct v; reflexivity. Qed.

Lemma feed_cleanup (v : bool) :
  Terminal.feed_all (Terminal.at_rest v) CLEANUP = Terminal.at_rest true.
Proof. destruct v; reflexivity. Qed.

Lemma feed_working (v : bool) :
  Terminal.feed_all (Terminal.at_rest v) Program.WORKING = Terminal.at_rest v.
Proof. destruct v; reflexivity. Qed.

Lemma feed_frame (v : bool) (i : nat) :
  Terminal.feed_all (Terminal.at_rest v) (frame_at i) = Terminal.at_rest v.
Proof.
  assert (H : forallb
                (fun f =>
                   match Terminal.feed_all (Terminal.at_rest true) f,
                         Terminal.feed_all (Terminal.at_rest false) f with
                   | {| Terminal.visible := true; Terminal.seen := O |},
                     {| Terminal.visible := false; Terminal.seen := O |} => true
                   | _, _ => false
                   end) Text.ALL_BRAILLE_FRAMES = true) by (vm_compute; reflexivity).
  rewrite forallb_forall in H.
  destruct (Nat.lt_ge_cases i (length Text.ALL_BRAILLE_FRAMES)) as [Hi|Hi].
  - specialize (H (frame_at i) (nth_In _ _ Hi)).
    destruct (Terminal.feed_all (Terminal.at_rest true) (frame_at i)) as [[|] [|?]] eqn:E1;
      try discriminate H;
      destruct (Terminal.feed_all (Terminal.at_rest false) (frame_at i)) as [[|] [|?]] eqn:E2;
      try discriminate H.
    destruct v; assumption.
  - unfold frame_at. rewrite nth_overflow by exact Hi. reflexivity.
Qed.

Lemma show_not_frame : is_frame Program.SHOW = false.
Proof. vm_compute. reflexivity. Qed.

Lemma frame_not_show (i : nat) : frame_at i <> Program.SHOW.
Proof.
  intros E. destruct (Nat.lt_ge_cases i 256) as [Hi|Hi].
  - pose proof (frame_at_is_frame i Hi) as F. rewrite E, show_not_frame in F.
    discriminate F.
  - unfold frame_at in E. rewrite nth_overflow in E by (rewrite braille_frames_length; lia).
    discriminate E.
Qed.

(** No step of the spinner issues the show-cursor write of [main]. *)
Lemma spin_step_never_shows (tail : option error) (ev : event) (sp sp' : state)
    (o : list effect) :
  step tail ev sp = Some (sp', o) -> ~ In (EWrite Program.SHOW) o.
Proof.
  intros H Hin. step_cases H; cbn [In] in Hin;
    repeat (destruct Hin as [Hin|Hin]); try discriminate Hin; try contradiction;
    injection Hin as Hin;
    first [now apply frame_not_show in Hin | vm_compute in Hin; discriminate Hin].
Qed.

(** What the spinner writes on its own, without a call of [cancel], is frames. *)
Lemma spin_step_writes_frames (tail : option error) (ev : event) (sp sp' : state)
    (o : list effect) :
  step tail ev sp = Some (sp', o) ->
  Program.is_call ev = false ->
  Forall (fun b => exists i, b = frame_at i) (writes o).
Proof.
  intros H Hn. step_cases H; cbn [writes flat_map app]; try discriminate Hn;
    repeat (first [apply List.Forall_nil | apply List.Forall_cons]); eauto.
Qed.

Lemma entered_try_app (out out' : list effect) :
  Program.entered_try (out ++ out') = Program.entered_try out || Program.entered_try out'.
Proof. apply existsb_app. Qed.

(** The show-cursor write is not among the effects [out ++ o], [o] a list
    written out in full. *)
Ltac no_show H :=
  let Hin := fresh "Hin" in
  intros Hin; apply in_app_or in Hin as [Hin|Hin]; [exact (H Hin)|];
  cbn [In app] in Hin;
  repeat (destruct Hin as [Hin|Hin]); try discriminate Hin; try contradiction;
  injection Hin as Hin; vm_compute in Hin; discriminate Hin.

(** The show-cursor write closes the effects [out ++ o]. *)
Ltac show_is_last out :=
  intros _; exists (writes out), []; rewrite writes_app;
  split; [reflexivity | apply List.Forall_nil].

Lemma program_step_invariant (ev : Program.event) (s s' : Program.state)
    (out out' : list effect) :
  Program.invariant s out ->
  Program.step ev s = Some (s', out') ->
  Program.invariant s' (out ++ out').
Proof.
  intros Hm H. unfold Program.invariant in *.
  destruct ev as [r|r| | |ev].
  - (* the write of line 136 *)
    program_cases H; cbn [Program.mpc];
      destruct Hm as (Hm1 & Hm2 & Hm3 & Hm4);
      first [ solve [no_show Hm4]
            | solve [show_is_last out]
            | rewrite app_nil_r, Hm1; discriminate ].
  - (* the read of line 129 *)
    assert (Ho : out' = [ESetRaw false] /\ Program.mpc s' = Program.mpc s /\
                 Program.spinner s' = Program.spinner s /\ Program.wfk s <> None).
    { program_cases H; cbn; repeat split; discriminate. }
    destruct Ho as (-> & Em & Es & Hw). rewrite Em.
    destruct (Program.mpc s).
    + now destruct Hm as (_ & _ & E & _).
    + no_show Hm.
    + no_show Hm.
    + rewrite entered_try_app, writes_app. cbn. now rewrite orb_false_r, app_nil_r.
    + rewrite entered_try_app, writes_app. cbn. now rewrite orb_false_r, app_nil_r.
  - (* main resumed from line 141 *)
    program_cases H; cbn [Program.mpc];
      first [ solve [no_show Hm] | solve [show_is_last out] ].
  - (* main resumed from line 143 *)
    program_cases H; cbn [Program.mpc]; show_is_last out.
  - (* a step of the spinner *)
    unfold Program.step in H.
    assert (H' : exists sp sp',
               Program.is_call ev = false /\ Program.spinner s = Some sp /\
               step line98 ev sp = Some (sp', out') /\
               s' = {| Program.mpc := Program.mpc s; Program.wfk := Program.wfk s;
                       Program.spinner := Some sp'; Program.dev := Program.dev s |}).
    { assert (H0 : (if Program.is_call ev then None
                    else match Program.spinner s with
                         | Some sp =>
                             match step line98 ev sp with
                             | Some (sp', o) =>
                                 Some ({| Program.mpc := Program.mpc s;
                                          Program.wfk := Program.wfk s;
                                          Program.spinner := Some sp';
                                          Program.dev := Program.dev s |}, o)
                             | None => None
                             end
                         | None => None
                         end) = Some (s', out'))
        by (rewrite <- H; destruct (Program.mpc s); reflexivity).
      clear H. destruct (Program.is_call ev); [discriminate H0|].
      destruct (Program.spinner s) as [sp|]; [|discriminate H0].
      destruct (step line98 ev sp) as [[sp' o]|] eqn:Hs; [|discriminate H0].
      injection H0 as <- <-. eauto 10. }
    clear H. destruct H' as (sp & sp' & Hc & Hsp & Hs & ->).
    cbn [Program.mpc Program.spinner Program.wfk].
    assert (Hshow : ~ In (EWrite Program.SHOW) out -> ~ In (EWrite Program.SHOW) (out ++ out')).
    { intros Hn Hin. apply in_app_or in Hin as [Hin|Hin]; [exact (Hn Hin)|].
      exact (spin_step_never_shows _ _ _ _ _ Hs Hin). }
    assert (Hent : Program.entered_try out' = false)
      by (clear - Hs; step_cases Hs; reflexivity).
    assert (Hfin : (Program.entered_try out = true ->
                    exists pre post,
                      writes out = pre ++ Program.SHOW :: post /\
                      Forall (fun b => exists i, b = frame_at i) post) ->
                   Program.entered_try (out ++ out') = true ->
                   exists pre post,
                     writes (out ++ out') = pre ++ Program.SHOW :: post /\
                     Forall (fun b => exists i, b = frame_at i) post).
    { intros Hk E. rewrite entered_try_app, Hent, orb_false_r in E.
      destruct (Hk E) as (pre & post & Ew & F).
      exists pre, (post ++ writes out'). rewrite writes_app, Ew, <- app_assoc.
      split; [reflexivity|]. apply Forall_app. split; [exact F|].
      exact (spin_step_writes_frames _ _ _ _ _ Hs Hc). }
    destruct (Program.mpc s); auto.
    destruct Hm as (_ & E & _). congruence.
Qed.

Lemma program_run_invariant (evs : list Program.event) (s s' : Program.state)
    (out0 out : list effect) :
  Program.invariant s out0 ->
  Program.run evs s = Some (s', out) ->
  Program.invariant s' (out0 ++ out).
Proof.
  revert s out0 out. induction evs as [|ev evs IH]; intros s out0 out Hinv Hrun.
  - cbn in Hrun. injection Hrun as <- <-. now rewrite app_nil_r.
  - cbn [Program.run] in Hrun.
    destruct (Program.step ev s) as [[s1 out1]|] eqn:Hs; [|discriminate Hrun].
    destruct (Program.run evs s1) as [[s2 out2]|] eqn:Hr; [|discriminate Hrun].
    injection Hrun as <- <-. rewrite app_assoc.
    eapply IH; [|exact Hr]. eapply program_step_invariant; eassumption.
Qed.

Lemma program_reachable_invariant (d : Program.stdin) (evs : list Program.event)
    (s : Program.state) (out : list effect) :
  Program.trace_of d evs = Some (s, out) -> Program.invariant s out.
Proof.
  unfold Program.trace_of. intros H.
  destruct (Program.run evs (fst (Program.main d))) as [[s1 out1]|] eqn:Hr; [|discriminate H].
  injection H as <- <-.
  apply (program_run_invariant evs (fst (Program.main d)) s1 (snd (Program.main d)) out1);
    [|exact Hr].
  cbn. repeat split. intros [E|[]]. injection E as E. vm_compute in E. discriminate E.
Qed.

(** C8, on the code.  [cancel()] at line 142 is not awaited.  When its
    cleanup write is rejected, the promise it returned is rejected with
    nothing to handle it, which ends the process while [main] is still
    suspended at line 143, [done] being pending: the finally block has not
    run, and the show-cursor write has not been issued.  In the run below the sink has been sent the
    hide-cursor sequence and no show-cursor sequence but the one in the
    rejected cleanup write, and a terminal that received the other writes has
    its cursor hidden.  In general the show-cursor write of the finally block
    is on no trace on which [main] has not finished. *)
Theorem C8_rejected_cleanup_write_skips_finally :
  (exists s out,
     Program.trace_of Program.terminal_stdin Program.rejected_cleanup_events
     = Some (s, out) /\
     Program.mpc s = Program.MAwaitDone /\
     Program.step Program.DoneAwaited s = None /\
     Program.cancel_failed s = true /\
     Program.exited s = true /\
     Program.main_finished s = false /\
     writes out = [Program.WORKING; HIDE; frame_at 0; CLEANUP] /\
     ~ In (EWrite Program.SHOW) out /\
     Terminal.visible (Terminal.receive [Program.WORKING; HIDE; frame_at 0]) = false /\
     Terminal.visible (Terminal.receive [Program.WORKING; HIDE]) = false) /\
  (forall d evs s out,
     Program.trace_of d evs = Some (s, out) ->
     Program.main_finished s = false ->
     ~ In (EWrite Program.SHOW) out).
Proof.
  split.
  - eexists. eexists. split; [reflexivity|].
    repeat (split; [reflexivity|]).
    split; [|split; reflexivity].
    cbn [In]. intros Hin.
    repeat (destruct Hin as [Hin|Hin]); try discriminate Hin; try contradiction;
      injection Hin as Hin; vm_compute in Hin; discriminate Hin.
  - intros d evs s out Ht Hf.
    pose proof (program_reachable_invariant _ _ _ _ Ht) as Hm.
    unfold Program.invariant in Hm. unfold Program.main_finished in Hf.
    destruct (Program.mpc s); try discriminate Hf; try exact Hm.
    now destruct Hm as (_ & _ & _ & Hm).
Qed.

(** * The theorems at concrete runs *)

(** The first frame's write fails; the reaction has not run yet. *)
Lemma C1_witness :
  exists s out,
    trace_of line98 None [LoopResume Completed; LoopResume (Failed (ErrEnv 1))]
    = Some (s, out) /\
    loop s = LThrown (ErrEnv 1) /\
    calls s = [] /\
    Deferred.promise (done s) = Pending /\
    exists s', step line98 React s = Some (s', []) /\
               Deferred.promise (done s') = Fulfilled (VError (ErrEnv 1)) /\
               Deferred.isResolved (done s') = true /\
               Deferred.isRejected (done s') = false.
Proof.
  eexists. eexists. split; [reflexivity|].
  split; [reflexivity|]. split; [reflexivity|].
  exact (proj2 (proj2 (proj2
           (C1_loop_failure_fulfils_done line98 None
              [LoopResume Completed; LoopResume (Failed (ErrEnv 1))] _ _ eq_refl)))
           (ErrEnv 1) eq_refl eq_refl).
Defined.

(** Two calls of [cancel] right after [spin()]. *)
Lemma C3_witness :
  exists s out,
    trace_of line98 None [] = Some (s, out) /\
    exists s1 s2 v,
      run line98 (cancel_events 0) s = Some (s1, [EWrite CLEANUP]) /\
      run line98 (cancel_events 1) s1 = Some (s2, [EWrite CLEANUP]) /\
      calls s1 !! 0%nat = Some CReturned /\
      calls s2 !! 0%nat = Some CReturned /\
      calls s2 !! 1%nat = Some CReturned /\
      Deferred.promise (done s1) = Fulfilled v /\
      Deferred.promise (done s2) = Fulfilled v.
Proof.
  eexists. eexists. split; [reflexivity|].
  exact (C3_stop_twice_same_outcome_cleanup_per_call line98 None [] _ _ eq_refl).
Defined.

(** An undisturbed run up to the throw of line 98 and the reaction to it. *)
Lemma C4_witness :
  exists s out,
    trace_of line98 None
      [LoopResume Completed; LoopResume Completed; LoopResume Completed; React]
    = Some (s, out) /\
    (length (frame_writes out) <= 1)%nat /\
    ~ In (EWrite (frame_at 1)) out.
Proof.
  eexists. eexists. split; [reflexivity|].
  exact (proj2 (C4_loop_throws_after_first_frame None)
           [LoopResume Completed; LoopResume Completed; LoopResume Completed; React]
           _ _ eq_refl).
Defined.

(** [cancel] is called while the hide-cursor write is outstanding; the loop
    is resumed afterwards. *)
Lemma C5_witness :
  exists s' out,
    run line98 [LoopResume Completed; CancelWritten 0 Completed]
      (set_calls [CAwaitWrite] (set_cancelled (fst (spin None)))) = Some (s', out) /\
    cancelled (set_calls [CAwaitWrite] (set_cancelled (fst (spin None)))) = true /\
    cancelled s' = true /\
    loop s' = LReturned /\
    (forall b, In (EWrite b) out -> b = CLEANUP /\ is_frame b = false).
Proof.
  eexists. eexists. split; [reflexivity|]. split; [reflexivity|].
  split; [|split; [reflexivity|]].
  - exact (proj1 (proj1 (C5_flag_checked_before_each_frame line98
                           [LoopResume Completed; CancelWritten 0 Completed]
                           (set_calls [CAwaitWrite] (set_cancelled (fst (spin None))))
                           _ _ eq_refl)
                    eq_refl)).
  - exact (proj2 (proj1 (C5_flag_checked_before_each_frame line98
                           [LoopResume Completed; CancelWritten 0 Completed]
                           (set_calls [CAwaitWrite] (set_cancelled (fst (spin None))))
                           _ _ eq_refl)
                    eq_refl)).
Defined.

(** [cancel] is called after the first frame was written. *)
Lemma C6_witness :
  exists s out,
    trace_of line98 None [LoopResume Completed] = Some (s, out) /\
    exists s1 s2 s3 v,
      step line98 CallCancel s = Some (s1, [EWrite CLEANUP]) /\
      cancelled s1 = true /\ done s1 = done s /\ calls s1 !! 0%nat = Some CAwaitWrite /\
      step line98 (CancelWritten 0 Completed) s1 = Some (s2, []) /\
      done s2 = Deferred.resolve VUndefined (done s) /\
      Deferred.isResolved (done s2) = true /\
      Deferred.promise (done s2) = Fulfilled v /\
      calls s2 !! 0%nat = Some CAwaitDone /\
      step line98 (CancelDone 0) s2 = Some (s3, []) /\
      calls s3 !! 0%nat = Some CReturned /\
      Deferred.promise (done s3) = Fulfilled v.
Proof.
  eexists. eexists. split; [reflexivity|].
  exact (proj1 (proj2
           (C6_stop_sets_flag_cleans_up_fulfils_then_awaits line98 None
              [LoopResume Completed] _ _ eq_refl))).
Defined.

(** The cleanup write of [cancel] is rejected while [main] waits at line 143. *)
Lemma C8_witness :
  exists s out,
    Program.trace_of Program.terminal_stdin Program.rejected_cleanup_events
    = Some (s, out) /\
    Program.exited s = true /\
    Program.main_finished s = false /\
    ~ In (EWrite Program.SHOW) out.
Proof.
  eexists. eexists. split; [reflexivity|]. split; [reflexivity|]. split; [reflexivity|].
  exact (proj2 C8_rejected_cleanup_write_skips_finally
           Program.terminal_stdin Program.rejected_cleanup_events _ _ eq_refl eq_refl).
Defined.

(** [spin()] and the first timer. *)
Lemma C9_witness :
  exists s out,
    trace_of line98 None [LoopResume Completed; LoopResume Completed] = Some (s, out) /\
    In (ESleep 500) out /\
    ms s = 500 /\
    (forall d, In (ESleep d) out -> d = 500).
Proof.
  eexists. eexists. split; [reflexivity|].
  split; [cbn; auto|].
  exact (proj2 (proj2
           (C9_default_interval_is_500 line98
              [LoopResume Completed; LoopResume Completed] _ _ eq_refl))).
Defined.

(** A terminal in raw mode whose [setRaw] calls go through, the read failing. *)
Lemma C10_witness :
  Program.faults {| Program.raw := true; Program.faults := [] |} = [] /\
  Program.raw (snd (fst (Program.waitForKeypress (Failed (ErrEnv 5))
                           {| Program.raw := true; Program.faults := [] |}))) = false /\
  snd (Program.waitForKeypress (Failed (ErrEnv 5))
         {| Program.raw := true; Program.faults := [] |})
  = [ESetRaw true; ERead; ESetRaw false] /\
  fst (fst (Program.waitForKeypress (Failed (ErrEnv 5))
              {| Program.raw := true; Program.faults := [] |}))
  = Program.WThrown (ErrEnv 5).
Proof.
  split; [reflexivity|].
  exact (proj2 (proj2 (proj2
           (C10_waitForKeypress_restores_raw_mode (Failed (ErrEnv 5))
              {| Program.raw := true; Program.faults := [] |}))) eq_refl).
Defined.

(** * Further properties of the code *)

(** ** class Deferred *)

(** For a deferred reached from the constructor by any calls, [isDone]
    holds exactly when the promise is settled, and the flag that goes with
    the outcome the promise has is up: [isResolved] on a fulfilled promise,
    [isRejected] on a rejected one, neither on a pending one. *)
Theorem deferred_flags_agree_with_outcome (cs : list Deferred.call) :
  Deferred.isDone (Deferred.apply_all cs Deferred.new)
  = negb (is_pending (Deferred.promise (Deferred.apply_all cs Deferred.new))) /\
  match Deferred.promise (Deferred.apply_all cs Deferred.new) with
  | Pending =>
      Deferred.isResolved (Deferred.apply_all cs Deferred.new) = false /\
      Deferred.isRejected (Deferred.apply_all cs Deferred.new) = false
  | Fulfilled _ => Deferred.isResolved (Deferred.apply_all cs Deferred.new) = true
  | Rejected _ => Deferred.isRejected (Deferred.apply_all cs Deferred.new) = true
  end.
Proof.
  destruct (apply_all_flags cs) as [H1 H2].
  unfold Deferred.isDone. unfold Deferred.isResolved, Deferred.isRejected in *.
  rewrite H1, H2, apply_all_promise.
  destruct cs as [|[v|r] cs]; cbn; auto using orb_true_r.
Qed.

(** ** The outcome of [done] *)

Section Outcome.

Variable tail : option error.

Lemma step_keeps_settled (ev : event) (s s' : state) (out : list effect) :
  step tail ev s = Some (s', out) ->
  is_pending (Deferred.promise (done s)) = false ->
  Deferred.promise (done s') = Deferred.promise (done s).
Proof.
  intros H Hp. step_cases H; cbn; try reflexivity; try congruence;
    destruct (Deferred.promise (done s)); try discriminate Hp; reflexivity.
Qed.

Lemma run_keeps_settled (evs : list event) (s s' : state) (out : list effect) :
  run tail evs s = Some (s', out) ->
  is_pending (Deferred.promise (done s)) = false ->
  Deferred.promise (done s') = Deferred.promise (done s).
Proof.
  revert s out. induction evs as [|ev evs IH]; intros s out Hr Hp.
  - cbn in Hr. now injection Hr as <- <-.
  - cbn [run] in Hr.
    destruct (step tail ev s) as [[s1 out1]|] eqn:Hs; [|discriminate Hr].
    destruct (run tail evs s1) as [[s2 out2]|] eqn:Hr1; [|discriminate Hr].
    injection Hr as <- <-.
    pose proof (step_keeps_settled _ _ _ _ Hs Hp) as E.
    rewrite <- E. apply (IH _ _ Hr1). now rewrite E.
Qed.

(** Once [done.promise] is settled, no run changes what it is settled to:
    whoever awaits [done], and whenever, sees the same outcome. *)
Theorem done_outcome_is_stable (evs : list event) (s s' : state) (out : list effect) :
  run tail evs s = Some (s', out) ->
  is_pending (Deferred.promise (done s)) = false ->
  Deferred.promise (done s') = Deferred.promise (done s).
Proof. apply run_keeps_settled. Qed.

Lemma step_settled_by_cancel_only (ev : event) (s s' : state) (out : list effect) :
  settled_by_cancel_only s -> step tail ev s = Some (s', out) -> settled_by_cancel_only s'.
Proof.
  unfold settled_by_cancel_only. intros Hinv H.
  step_cases H;
    cbn [calls reacted done loop set_loop set_done set_reacted set_calls set_cancelled];
    intros Hr; try discriminate Hr; specialize (Hinv Hr);
    try exact Hinv.
  - (* a call of cancel *)
    destruct Hinv as [E|[E F]]; [now left|right]. split; [exact E|].
    apply Forall_app. split; [exact F|]. now repeat constructor.
  - (* its write completes *)
    left. cbn. destruct Hinv as [->|[-> _]]; reflexivity.
  - (* its write fails *)
    destruct Hinv as [E|[E F]]; [now left|right]. split; [exact E|].
    apply Forall_insert; [exact F|exact I].
  - (* it returns *)
    destruct Hinv as [E|[E F]]; [left; congruence | discriminate E].
  - destruct Hinv as [E|[E F]]; [left; congruence | discriminate E].
Qed.

Lemma reachable_settled_by_cancel_only
    (arg : option Z) (evs : list event) (s : state) (out : list effect) :
  trace_of tail arg evs = Some (s, out) -> settled_by_cancel_only s.
Proof.
  apply (trace_invariant tail (fun s _ => settled_by_cancel_only s)).
  - intros _. right. split; [reflexivity | constructor].
  - intros ev s0 _ s1 out1. apply step_settled_by_cancel_only.
Qed.

(** The first to settle [done] decides its value for good.  If the loop
    threw [e] and the reaction of line 119 ran before any call of [cancel],
    [done] stays fulfilled with [e] whatever calls of [cancel] follow.  If a
    call of [cancel] got past its write before the reaction ran, [done] stays
    fulfilled with [undefined] however the loop ends afterwards. *)
Theorem first_settlement_decides_done
    (arg : option Z) (evs evs' : list event) (s s' : state) (out out' : list effect) :
  trace_of tail arg evs = Some (s, out) ->
  run tail evs' s = Some (s', out') ->
  (forall e, loop s = LThrown e -> calls s = [] -> reacted s = true ->
     Deferred.promise (done s') = Fulfilled (VError e)) /\
  (forall k, reacted s = false ->
     calls s !! k = Some CAwaitDone \/ calls s !! k = Some CReturned ->
     Deferred.promise (done s') = Fulfilled VUndefined).
Proof.
  intros Ht Hr. split.
  - intros e He Hc Hre.
    pose proof (reachable_untouched tail _ _ _ _ Ht Hc) as H.
    unfold then_, internalPromise in H. rewrite Hre, He in H.
    injection H as H. apply (f_equal Deferred.promise) in H. cbn in H. symmetry in H.
    rewrite (run_keeps_settled _ _ _ _ Hr); [exact H|].
    now rewrite H.
  - intros k Hre Hk.
    destruct (reachable_settled_by_cancel_only _ _ _ _ Ht Hre) as [E|[_ F]].
    + rewrite (run_keeps_settled _ _ _ _ Hr); [exact E|]. now rewrite E.
    + exfalso. rewrite Forall_lookup in F.
      destruct Hk as [Hk|Hk]; exact (F _ _ Hk).
Qed.

End Outcome.

(** ** What [spin] puts on the sink *)

Section Sink.

Variable tail : option error.

Lemma frame_not_cleanup (i : nat) : frame_at i <> CLEANUP.
Proof.
  intros E. destruct (Nat.lt_ge_cases i 256) as [Hi|Hi].
  - pose proof (frame_at_is_frame i Hi) as F. rewrite E, cleanup_not_frame in F.
    discriminate F.
  - unfold frame_at in E. rewrite nth_overflow in E by (rewrite braille_frames_length; lia).
    discriminate E.
Qed.

Lemma frame_not_hide (i : nat) : frame_at i <> HIDE.
Proof.
  intros E. destruct (Nat.lt_ge_cases i 256) as [Hi|Hi].
  - pose proof (frame_at_is_frame i Hi) as F. rewrite E, hide_not_frame in F.
    discriminate F.
  - unfold frame_at in E. rewrite nth_overflow in E by (rewrite braille_frames_length; lia).
    discriminate E.
Qed.

Lemma cleanups_app (out out' : list effect) :
  cleanups (out ++ out') = (cleanups out + cleanups out')%nat.
Proof. unfold cleanups. now rewrite writes_app, count_occ_app. Qed.

Lemma cleanups_frame (i : nat) : cleanups [EWrite (frame_at i)] = 0%nat.
Proof.
  unfold cleanups. cbn [writes flat_map app count_occ].
  destruct (List.list_eq_dec Z.eq_dec (frame_at i) CLEANUP) as [E|_]; [|reflexivity].
  now destruct (frame_not_cleanup i).
Qed.

Lemma step_cleanups (ev : event) (s s' : state) (o : list effect) :
  step tail ev s = Some (s', o) ->
  cleanups o = (if is_cancel_call ev then 1 else 0)%nat /\
  length (calls s') = (length (calls s) + if is_cancel_call ev then 1 else 0)%nat.
Proof.
  intros H.
  step_cases H;
    cbn [calls set_loop set_done set_reacted set_calls set_cancelled is_cancel_call];
    rewrite ?length_insert, ?length_app, ?cleanups_frame; cbn [length];
    split; try reflexivity; lia.
Qed.

Lemma run_cleanups (evs : list event) (s s' : state) (out : list effect) :
  run tail evs s = Some (s', out) ->
  cleanups out = length (List.filter is_cancel_call evs) /\
  length (calls s') = (length (calls s) + length (List.filter is_cancel_call evs))%nat.
Proof.
  revert s out. induction evs as [|ev evs IH]; intros s out Hr.
  - cbn in Hr. injection Hr as <- <-. cbn. split; [reflexivity | lia].
  - cbn [run] in Hr.
    destruct (step tail ev s) as [[s1 out1]|] eqn:Hs; [|discriminate Hr].
    destruct (run tail evs s1) as [[s2 out2]|] eqn:Hr1; [|discriminate Hr].
    injection Hr as <- <-.
    destruct (step_cleanups _ _ _ _ Hs) as [E1 E2].
    destruct (IH _ _ Hr1) as [E3 E4].
    rewrite cleanups_app, E1, E3, E4, E2. cbn [List.filter].
    destruct (is_cancel_call ev); cbn [length]; split; lia.
Qed.

(** Every call of [cancel] puts one cleanup sequence on the sink, and
    nothing else does: in every run the number of cleanup sequences written is
    the number of calls of [cancel] made. *)
Theorem one_cleanup_per_cancel_call
    (arg : option Z) (evs : list event) (s : state) (out : list effect) :
  trace_of tail arg evs = Some (s, out) ->
  cleanups out = length (calls s) /\
  length (calls s) = length (List.filter is_cancel_call evs).
Proof.
  unfold trace_of. intros H.
  destruct (run tail evs (fst (spin arg))) as [[s1 out1]|] eqn:Hr; [|discriminate H].
  injection H as <- <-.
  destruct (run_cleanups _ _ _ _ Hr) as [E1 E2]. cbn [spin fst calls length] in E2.
  assert (E : cleanups [EWrite HIDE] = 0%nat) by (vm_compute; reflexivity).
  change (cleanups ([EWrite HIDE] ++ out1) = length (calls s1) /\
          length (calls s1) = length (List.filter is_cancel_call evs)).
  rewrite cleanups_app, E, E1, E2. split; reflexivity.
Qed.

Lemma step_spin_effects (ev : event) (s s' : state) (o : list effect) :
  step tail ev s = Some (s', o) ->
  in_table (loop s) ->
  in_table (loop s') /\ ms s' = ms s /\ Forall (spin_effect (ms s)) o.
Proof.
  intros H Hi.
  assert (H0 : (0 < length Text.ALL_BRAILLE_FRAMES)%nat)
    by (rewrite braille_frames_length; lia).
  step_cases H;
    cbn [loop ms set_loop set_done set_reacted set_calls set_cancelled in_table];
    repeat match goal with
           | E : loop s = _ |- _ => rewrite E in *; clear E
           | E : (_ <? _)%nat = true |- _ => apply Nat.ltb_lt in E
           end;
    cbn [in_table] in *;
    (split; [first [exact I | assumption]|]); (split; [reflexivity|]);
    repeat (first [apply List.Forall_nil | apply List.Forall_cons]);
    cbn [spin_effect]; eauto.
Qed.

(** The first thing [spin] issues is the hide-cursor write, and it issues
    it once.  Everything after it is a cleanup sequence, a frame of the table
    at an index below 256, or a timer of [ms] milliseconds: [spin] never
    reads or sets stdin, never logs, and never indexes past the table. *)
Theorem spin_effects_are_hide_then_frames_timers_cleanups
    (arg : option Z) (evs : list event) (s : state) (out : list effect) :
  trace_of tail arg evs = Some (s, out) ->
  in_table (loop s) /\
  exists rest,
    out = EWrite HIDE :: rest /\
    Forall (spin_effect (default 500 arg)) rest /\
    ~ In (EWrite HIDE) rest.
Proof.
  intros Ht.
  assert (Hinv : ms s = default 500 arg /\ in_table (loop s) /\
                 exists rest, out = EWrite HIDE :: rest /\
                              Forall (spin_effect (default 500 arg)) rest).
  { revert Ht.
    apply (trace_invariant tail
             (fun s out => ms s = default 500 arg /\ in_table (loop s) /\
                           exists rest, out = EWrite HIDE :: rest /\
                                        Forall (spin_effect (default 500 arg)) rest)).
    - split; [reflexivity|]. split; [exact I|]. exists []. split; [reflexivity|constructor].
    - intros ev s0 out0 s1 out1 (Hm & Hi & rest & -> & F) Hs.
      destruct (step_spin_effects _ _ _ _ Hs Hi) as (Hi' & Hm' & F').
      split; [congruence|]. split; [exact Hi'|].
      exists (rest ++ out1). split; [reflexivity|].
      apply Forall_app. split; [exact F|]. now rewrite <- Hm. }
  destruct Hinv as (_ & Hi & rest & -> & F). split; [exact Hi|].
  exists rest. split; [reflexivity|]. split; [exact F|].
  intros Hin. rewrite Forall_forall in F. apply list_elem_of_In in Hin.
  specialize (F _ Hin). cbn in F. destruct F as [E|(i & _ & E)].
  - vm_compute in E. discriminate E.
  - symmetry in E. now apply frame_not_hide in E.
Qed.

Lemma step_writes_cleanup_or_frame (ev : event) (s s' : state) (o : list effect) :
  step tail ev s = Some (s', o) ->
  Forall (fun b => b = CLEANUP \/ exists i, b = frame_at i) (writes o).
Proof.
  intros H. step_cases H; cbn [writes flat_map app];
    repeat (first [apply List.Forall_nil | apply List.Forall_cons]); eauto.
Qed.

(** The writes of a run: the hide-cursor write, then cleanup sequences and
    frames, with one cleanup sequence for each call of [cancel]. *)
Lemma trace_writes (arg : option Z) (evs : list event) (s : state) (out : list effect) :
  trace_of tail arg evs = Some (s, out) ->
  (exists rest,
     writes out = HIDE :: rest /\
     Forall (fun b => b = CLEANUP \/ exists i, b = frame_at i) rest) /\
  cleanups out = length (calls s).
Proof.
  apply (trace_invariant tail
           (fun s out =>
              (exists rest,
                 writes out = HIDE :: rest /\
                 Forall (fun b => b = CLEANUP \/ exists i, b = frame_at i) rest) /\
              cleanups out = length (calls s))).
  - split; [|reflexivity]. exists []. split; [reflexivity | apply List.Forall_nil].
  - intros ev s0 out0 s1 out1 [(rest & Ew & F) Hc] Hs.
    destruct (step_cleanups _ _ _ _ Hs) as [E1 E2]. split.
    + exists (rest ++ writes out1). rewrite writes_app, Ew. split; [reflexivity|].
      apply Forall_app. split; [exact F|].
      exact (step_writes_cleanup_or_frame _ _ _ _ Hs).
    + rewrite cleanups_app, Hc, E1, E2. reflexivity.
Qed.

Lemma sublist_In (ws l : list (list Z)) :
  sublist ws l -> forall b, In b ws -> In b l.
Proof.
  induction 1 as [|x k l _ IH|x k l _ IH]; intros b Hin.
  - exact Hin.
  - destruct Hin as [<-|Hin]; [now left | right; now apply IH].
  - right. now apply IH.
Qed.

(** Cleanup sequences and frames, received whole by a terminal between
    escape sequences: the cursor is shown once a cleanup sequence is among
    them, and is as it was otherwise. *)
Lemma receive_cleanups_and_frames (ws : list (list Z)) (v : bool) :
  Forall (fun b => b = CLEANUP \/ exists i, b = frame_at i) ws ->
  Terminal.feed_all (Terminal.at_rest v) (concat ws) =
  Terminal.at_rest (v || bool_decide (CLEANUP ∈ ws)).
Proof.
  intros F. revert v. induction F as [|b ws Hb _ IH]; intros v.
  - cbn [concat Terminal.feed_all fold_left]. rewrite bool_decide_eq_false_2.
    + now rewrite orb_false_r.
    + apply not_elem_of_nil.
  - cbn [concat]. rewrite feed_all_app. destruct Hb as [->|[i ->]].
    + rewrite feed_cleanup, IH. cbn [orb].
      rewrite (bool_decide_eq_true_2 (CLEANUP ∈ CLEANUP :: ws)) by apply list_elem_of_here.
      now rewrite orb_true_r.
    + rewrite feed_frame, IH. f_equal. f_equal. apply bool_decide_ext.
      rewrite elem_of_cons. split; [now right|].
      intros [E|H]; [|exact H]. symmetry in E. now apply frame_not_cleanup in E.
Qed.

(** The loop never shows the cursor again, however it ends, and whichever
    of its writes reach the terminal.  Let [ws] be any of the writes of a
    run, in order, each received whole: those that completed, say.  After
    them the cursor is hidden exactly when the hide-cursor write is among
    them and no cleanup write is; and no cleanup write is among them while
    [cancel] has not been called. *)
Theorem cursor_hidden_until_a_cleanup_is_received
    (arg : option Z) (evs : list event) (s : state) (out : list effect)
    (ws : list (list Z)) :
  trace_of tail arg evs = Some (s, out) ->
  sublist ws (writes out) ->
  Terminal.receive ws =
  Terminal.at_rest (negb (bool_decide (HIDE ∈ ws)) || bool_decide (CLEANUP ∈ ws)) /\
  (calls s = [] -> CLEANUP ∉ ws).
Proof.
  intros Ht Hsub. destruct (trace_writes _ _ _ _ Ht) as [(rest & Ew & F) Hc].
  assert (Hrest : ~ In HIDE rest).
  { intros Hin. rewrite List.Forall_forall in F. destruct (F _ Hin) as [E|[i E]].
    - vm_compute in E. discriminate E.
    - symmetry in E. now apply frame_not_hide in E. }
  split.
  - rewrite Ew in Hsub. unfold Terminal.receive.
    assert (Hcase : (exists ws', ws = HIDE :: ws' /\ sublist ws' rest) \/ sublist ws rest).
    { inversion Hsub; subst; eauto. }
    destruct Hcase as [(ws' & -> & Hsub')|Hsub'].
    + assert (F' : Forall (fun b => b = CLEANUP \/ exists i, b = frame_at i) ws').
      { rewrite List.Forall_forall in *. intros b Hb. apply F.
        exact (sublist_In _ _ Hsub' b Hb). }
      cbn [concat]. rewrite feed_all_app.
      change Terminal.initial with (Terminal.at_rest true).
      rewrite feed_hide, (receive_cleanups_and_frames ws' false F').
      rewrite (bool_decide_eq_true_2 (HIDE ∈ HIDE :: ws')) by apply list_elem_of_here.
      cbn [negb orb]. f_equal. apply bool_decide_ext.
      rewrite elem_of_cons. split; [now right|].
      intros [E|H]; [|exact H]. vm_compute in E. discriminate E.
    + assert (F' : Forall (fun b => b = CLEANUP \/ exists i, b = frame_at i) ws).
      { rewrite List.Forall_forall in *. intros b Hb. apply F.
        exact (sublist_In _ _ Hsub' b Hb). }
      change Terminal.initial with (Terminal.at_rest true).
      rewrite (receive_cleanups_and_frames ws true F').
      rewrite (bool_decide_eq_false_2 (HIDE ∈ ws)); [reflexivity|].
      intros Hin. apply list_elem_of_In in Hin. apply Hrest.
      exact (sublist_In _ _ Hsub' _ Hin).
  - intros E Hin. rewrite E in Hc. cbn [length] in Hc. unfold cleanups in Hc.
    apply list_elem_of_In in Hin.
    pose proof (sublist_In _ _ Hsub _ Hin) as Hin'.
    apply (count_occ_not_In (List.list_eq_dec Z.eq_dec)) in Hc. exact (Hc Hin').
Qed.

Lemma step_when_cancelled (ev : event) (s s' : state) (o : list effect) :
  cancelled s = true ->
  step tail ev s = Some (s', o) ->
  cancelled s' = true /\
  (length (timers o) + timers_left (loop s') <= timers_left (loop s))%nat /\
  ((if is_loop_event ev then 1 else 0) + resumptions_left (loop s')
   <= resumptions_left (loop s))%nat.
Proof.
  intros Hc H.
  step_cases H;
    cbn [cancelled loop set_loop set_done set_reacted set_calls set_cancelled
         is_loop_event timers flat_map app length timers_left resumptions_left];
    repeat match goal with
           | E : loop s = _ |- _ => rewrite E; clear E
           end;
    cbn [timers_left resumptions_left];
    try discriminate Hc; (split; [try reflexivity; assumption|]); split; lia.
Qed.

Lemma loop_ends_within_two_resumptions_of_cancel_aux
    (evs : list event) (s s' : state) (out : list effect) :
  cancelled s = true ->
  run tail evs s = Some (s', out) ->
  (length (List.filter is_loop_event evs) <= resumptions_left (loop s))%nat /\
  (length (timers out) <= timers_left (loop s))%nat.
Proof.
  revert s out. induction evs as [|ev evs IH]; intros s out Hc Hr.
  - cbn in Hr. injection Hr as <- <-. cbn. split; lia.
  - cbn [run] in Hr.
    destruct (step tail ev s) as [[s1 out1]|] eqn:Hs; [|discriminate Hr].
    destruct (run tail evs s1) as [[s2 out2]|] eqn:Hr1; [|discriminate Hr].
    injection Hr as <- <-.
    destruct (step_when_cancelled _ _ _ _ Hc Hs) as (Hc1 & Ht & Hn).
    destruct (IH _ _ Hc1 Hr1) as [I1 I2].
    unfold timers in *. rewrite flat_map_app, length_app. cbn [List.filter].
    destruct (is_loop_event ev); cbn [length]; split; lia.
Qed.

(** Once the flag is set the loop is soon over: from then on
    [spinInternal] is resumed at most twice, to finish the frame it is on,
    and starts at most one more timer. *)
Theorem loop_ends_within_two_resumptions_of_cancel
    (evs : list event) (s s' : state) (out : list effect) :
  cancelled s = true ->
  run tail evs s = Some (s', out) ->
  (length (List.filter is_loop_event evs) <= resumptions_left (loop s))%nat /\
  (resumptions_left (loop s) <= 2)%nat /\
  (length (timers out) <= timers_left (loop s))%nat /\
  (timers_left (loop s) <= 1)%nat.
Proof.
  intros Hc Hr.
  destruct (loop_ends_within_two_resumptions_of_cancel_aux _ _ _ _ Hc Hr) as [H1 H2].
  repeat split; try assumption; destruct (loop s); cbn; lia.
Qed.

End Sink.

(** ** Runs of the program *)

Lemma spinner_step (ev : event) (s s' : Program.state) (o : list effect) :
  Program.step (Program.Spinner ev) s = Some (s', o) ->
  exists sp sp',
    is_cancel_call ev = false /\ Program.spinner s = Some sp /\
    step line98 ev sp = Some (sp', o) /\
    s' = {| Program.mpc := Program.mpc s; Program.wfk := Program.wfk s;
            Program.spinner := Some sp'; Program.dev := Program.dev s |}.
Proof.
  intros H.
  assert (H0 : (if Program.is_call ev then None
                else match Program.spinner s with
                     | Some sp =>
                         match step line98 ev sp with
                         | Some (sp', o) =>
                             Some ({| Program.mpc := Program.mpc s;
                                      Program.wfk := Program.wfk s;
                                      Program.spinner := Some sp';
                                      Program.dev := Program.dev s |}, o)
                         | None => None
                         end
                     | None => None
                     end) = Some (s', o))
    by (rewrite <- H; unfold Program.step; destruct (Program.mpc s); reflexivity).
  clear H. destruct ev; cbn [Program.is_call] in H0; try discriminate H0;
    (destruct (Program.spinner s) as [sp|]; [|discriminate H0]);
    match type of H0 with
    | context [step line98 ?e sp] =>
        destruct (step line98 e sp) as [[sp' o']|] eqn:Hs; [|discriminate H0]
    end;
    injection H0 as <- <-; exists sp, sp'; repeat split; assumption.
Qed.

Lemma program_run_keeps (P : Program.state -> list effect -> Prop) :
  (forall ev s out s' out',
      P s out -> Program.step ev s = Some (s', out') -> P s' (out ++ out')) ->
  forall evs s0 out0 s out,
    P s0 out0 -> Program.run evs s0 = Some (s, out) -> P s (out0 ++ out).
Proof.
  intros Hstep evs. induction evs as [|ev evs IH]; intros s0 out0 s out HP Hr.
  - cbn in Hr. injection Hr as <- <-. now rewrite app_nil_r.
  - cbn [Program.run] in Hr.
    destruct (Program.step ev s0) as [[s2 out2]|] eqn:Hs; [|discriminate Hr].
    destruct (Program.run evs s2) as [[s3 out3]|] eqn:Hr'; [|discriminate Hr].
    injection Hr as <- <-. rewrite app_assoc.
    apply (IH _ _ _ _ (Hstep _ _ _ _ _ HP Hs) Hr').
Qed.

Lemma program_trace_invariant (P : Program.state -> list effect -> Prop) (d : Program.stdin) :
  P (fst (Program.main d)) (snd (Program.main d)) ->
  (forall ev s out s' out',
      P s out -> Program.step ev s = Some (s', out') -> P s' (out ++ out')) ->
  forall evs s out, Program.trace_of d evs = Some (s, out) -> P s out.
Proof.
  intros H0 Hstep evs s out Ht. unfold Program.trace_of in Ht.
  destruct (Program.run evs (fst (Program.main d))) as [[s1 out1]|] eqn:Hr; [|discriminate Ht].
  injection Ht as <- <-.
  exact (program_run_keeps P Hstep evs _ _ _ _ H0 Hr).
Qed.

Lemma new_unrejected : unrejected Deferred.new.
Proof. split; [reflexivity|]. intros r. discriminate. Qed.

Lemma step_structure (ev : Program.event) (s s' : Program.state) (o : list effect) :
  Program.structure s -> Program.step ev s = Some (s', o) -> Program.structure s'.
Proof.
  intros [Hu Hm] H. unfold Program.structure.
  destruct ev as [r|r| | |ev].
  - program_cases H; cbn [Program.mpc Program.spinner Program.wfk];
      destruct Hm as [Hw Hs];
      (split; [intros sp0 E; first [injection E as <-; exact new_unrejected
                                   | rewrite Hs in E; discriminate E]|]);
      eauto 10.
  - program_cases H; cbn [Program.mpc Program.spinner Program.wfk];
      (split; [exact Hu|]);
      destruct (Program.mpc s);
      repeat match goal with
             | H : _ /\ _ |- _ => destruct H
             | H : exists _, _ |- _ => destruct H
             | H : _ \/ _ |- _ => destruct H
             end;
      first [congruence | eauto 10].
  - program_cases H; cbn [Program.mpc Program.spinner Program.wfk];
      destruct Hm as (sp & w & Hs & Hw & Hc & Hf);
      repeat match goal with
             | E : Some _ = Some _ |- _ => injection E as E; subst
             end.
    + split.
      * intros sp0 E. injection E as <-. cbn. now apply Hu.
      * eexists. split; [reflexivity|]. split; [reflexivity|].
        cbn. rewrite Hc. split; reflexivity.
    + split; [exact Hu|]. right. eauto 10.
  - program_cases H; cbn [Program.mpc Program.spinner Program.wfk];
      destruct Hm as (sp & Hs & Hw & Hc & Hf);
      repeat match goal with
             | E : Some _ = Some _ |- _ => injection E as E; subst
             end.
    + split; [exact Hu|]. eauto 10.
    + exfalso. destruct (Hu _ eq_refl) as [_ Hn]. eapply Hn. eassumption.
  - destruct (spinner_step _ _ _ _ H) as (sp & sp' & Hc & Hsp & Hs & ->).
    cbn [Program.mpc Program.spinner Program.wfk].
    destruct (step_cleanups line98 _ _ _ _ Hs) as [_ Hl]. rewrite Hc, Nat.add_0_r in Hl.
    destruct (step_flag line98 _ _ _ _ Hs) as (Hf1 & Hf2 & _).
    assert (Hflag : cancelled sp' = cancelled sp).
    { destruct (Bool.bool_dec (cancelled sp') (cancelled sp)) as [E|E]; [exact E|].
      apply Hf2 in E. subst ev. discriminate Hc. }
    split.
    + intros sp0 E. injection E as <-.
      eapply step_unrejected; [|exact Hs]. now apply Hu.
    + destruct (Program.mpc s).
      * destruct Hm as [_ E]. congruence.
      * destruct Hm as (sp0 & w & E1 & E2 & E3 & E4).
        rewrite Hsp in E1. injection E1 as <-.
        exists sp', w. repeat split; try assumption; try congruence.
        apply length_zero_iff_nil. rewrite Hl, E3. reflexivity.
      * destruct Hm as (sp0 & E1 & E2 & E3 & E4).
        rewrite Hsp in E1. injection E1 as <-.
        exists sp'. repeat split; congruence.
      * destruct Hm as (sp0 & E1 & E2 & E3 & E4).
        rewrite Hsp in E1. injection E1 as <-.
        exists sp'. repeat split; congruence.
      * destruct Hm as [[_ E]|(sp0 & e & E1 & E2 & E3 & E4 & E5)]; [congruence|].
        rewrite Hsp in E1. injection E1 as <-. right.
        exists sp', e. repeat split; try assumption; try congruence.
        apply length_zero_iff_nil. rewrite Hl, E4. reflexivity.
Qed.

Lemma reachable_structure (d : Program.stdin) (evs : list Program.event)
    (s : Program.state) (out : list effect) :
  Program.trace_of d evs = Some (s, out) -> Program.structure s.
Proof.
  apply (program_trace_invariant (fun s _ => Program.structure s)).
  - split; [intros sp E; discriminate E | split; reflexivity].
  - intros ev s0 _ s1 out1. apply step_structure.
Qed.

Lemma logged_app (out out' : list effect) :
  Program.logged (out ++ out') = (Program.logged out + Program.logged out')%nat.
Proof. unfold Program.logged. now rewrite List.filter_app, length_app. Qed.

Lemma spin_step_logs_nothing (tail : option error) (ev : event) (sp sp' : state)
    (o : list effect) :
  step tail ev sp = Some (sp', o) -> Program.logged o = 0%nat.
Proof. intros H. step_cases H; reflexivity. Qed.

Lemma spin_step_quiet_when_cancelled (tail : option error) (ev : event) (sp sp' : state)
    (o : list effect) :
  step tail ev sp = Some (sp', o) ->
  cancelled sp = true -> is_cancel_call ev = false -> writes o = [].
Proof.
  intros H Hc Hn. step_cases H; cbn in *; congruence.
Qed.

Lemma step_sink_shape (ev : Program.event) (s s' : Program.state) (out o : list effect) :
  Program.structure s ->
  Program.sink_shape s out ->
  Program.step ev s = Some (s', o) ->
  Program.sink_shape s' (out ++ o).
Proof.
  intros [Hu Hst] [Hcl Hsh] H. unfold Program.sink_shape.
  rewrite cleanups_app, logged_app, writes_app.
  destruct ev as [r|r| | |ev].
  - (* the write of line 136 *)
    program_cases H; cbn [Program.mpc Program.spinner Program.wfk];
      destruct Hst as [_ Hsp]; rewrite Hsp in Hcl; rewrite Hcl, ?Hsp;
      (split; [reflexivity|]); try reflexivity;
      (split; [reflexivity|]); intros _;
      first [left; reflexivity | right; reflexivity].
  - (* the read of line 129 *)
    assert (Ho : o = [ESetRaw false] /\ Program.mpc s' = Program.mpc s /\
                 Program.spinner s' = Program.spinner s /\ Program.wfk s <> None).
    { program_cases H; cbn; repeat split; discriminate. }
    destruct Ho as (-> & Em & Es & Hw). rewrite Em, Es.
    cbn [cleanups Program.logged List.filter length writes flat_map count_occ].
    rewrite !Nat.add_0_r, app_nil_r. split; [exact Hcl|].
    destruct (Program.mpc s); try exact Hsh.
    + now destruct Hst as [E _].
    + destruct Hsh as [Hl Hn]. split; [exact Hl|]. intros E.
      destruct Hst as [[E' _]|(sp & e & E' & _)]; [contradiction | congruence].
  - (* main resumed from line 141 *)
    program_cases H; cbn [Program.mpc Program.spinner Program.wfk];
      destruct Hst as (sp & w & Hs & Hw & Hc & Hf);
      repeat match goal with
             | E : Some _ = Some _ |- _ => injection E as E; subst
             end;
      rewrite Hcl.
    + cbn [calls set_calls set_cancelled]. rewrite length_app. split; [reflexivity|].
      rewrite Hsh. split; [reflexivity|]. now exists (writes out).
    + split; [now rewrite Nat.add_0_r|]. rewrite Hsh. split; [reflexivity|].
      intros E. congruence.
  - (* main resumed from line 143 *)
    program_cases H; cbn [Program.mpc Program.spinner Program.wfk];
      destruct Hst as (sp & Hs & Hw & Hc & Hf);
      repeat match goal with
             | E : Some _ = Some _ |- _ => injection E as E; subst
             end;
      rewrite Hcl; destruct Hsh as (Hl & pre & Hp); rewrite ?Hl, ?Hp.
    + split; [now rewrite Nat.add_0_r|]. split; [reflexivity|].
      exists pre. now rewrite <- app_assoc.
    + exfalso. destruct (Hu _ eq_refl) as [_ Hn]. eapply Hn. eassumption.
  - (* a step of the spinner *)
    destruct (spinner_step _ _ _ _ H) as (sp & sp' & Hc & Hsp & Hs & ->).
    cbn [Program.mpc Program.spinner Program.wfk].
    destruct (step_cleanups line98 _ _ _ _ Hs) as [E1 E2]. rewrite Hc in E1, E2.
    rewrite E1, E2, !Nat.add_0_r, (spin_step_logs_nothing _ _ _ _ _ Hs), Nat.add_0_r.
    rewrite Hsp in Hcl. split; [exact Hcl|].
    destruct (Program.mpc s).
    + destruct Hst as [_ E]. congruence.
    + exact Hsh.
    + destruct Hst as (sp0 & E & _ & _ & Hf). rewrite Hsp in E. injection E as <-.
      rewrite (spin_step_quiet_when_cancelled _ _ _ _ _ Hs Hf Hc), app_nil_r. exact Hsh.
    + destruct Hst as (sp0 & E & _ & _ & Hf). rewrite Hsp in E. injection E as <-.
      rewrite (spin_step_quiet_when_cancelled _ _ _ _ _ Hs Hf Hc), app_nil_r. exact Hsh.
    + destruct Hsh as [Hl _]. split; [exact Hl|]. intros E. discriminate E.
Qed.

Lemma reachable_sink_shape (d : Program.stdin) (evs : list Program.event)
    (s : Program.state) (out : list effect) :
  Program.trace_of d evs = Some (s, out) -> Program.structure s /\ Program.sink_shape s out.
Proof.
  apply (program_trace_invariant
           (fun s out => Program.structure s /\ Program.sink_shape s out)).
  - split.
    + split; [intros sp E; discriminate E | split; reflexivity].
    + split; reflexivity.
  - intros ev s0 out0 s1 out1 [H1 H2] Hs. split.
    + eapply step_structure; eassumption.
    + eapply step_sink_shape; eassumption.
Qed.

(** When [main] returns, the last two writes on stderr are the cleanup
    sequence and the show-cursor sequence, in this order, whatever frames
    came before; and a line is logged exactly when [main] returns, once. *)
Theorem main_returns_after_cleanup_then_show
    (d : Program.stdin) (evs : list Program.event) (s : Program.state) (out : list effect) :
  Program.trace_of d evs = Some (s, out) ->
  Program.logged out = (if Program.returned s then 1 else 0)%nat /\
  (Program.returned s = true ->
   Program.wfk s = Some Program.WReturned /\
   exists pre, writes out = pre ++ [CLEANUP; Program.SHOW]).
Proof.
  intros Ht. destruct (reachable_sink_shape _ _ _ _ Ht) as [[_ Hst] [_ Hsh]].
  unfold Program.returned. destruct (Program.mpc s); cbn.
  - subst out. split; [reflexivity | discriminate].
  - split; [exact Hsh | discriminate].
  - split; [apply Hsh | discriminate].
  - destruct Hst as (sp & _ & Hw & _). destruct Hsh as [Hl Hp].
    split; [exact Hl|]. intros _. split; assumption.
  - split; [apply Hsh | discriminate].
Qed.

(** [main] calls [cancel] at most once: there is one activation of
    [cancel] and one cleanup sequence on the sink once [main] is past line
    142, and none before.  When [main] throws, [cancel] was never called: the
    flag is still false and no cleanup sequence was written. *)
Theorem main_calls_cancel_at_most_once
    (d : Program.stdin) (evs : list Program.event) (s : Program.state) (out : list effect) :
  Program.trace_of d evs = Some (s, out) ->
  cleanups out = (if Program.past_cancel s then 1 else 0)%nat /\
  (forall sp, Program.spinner s = Some sp ->
     length (calls sp) = (if Program.past_cancel s then 1 else 0)%nat /\
     cancelled sp = Program.past_cancel s).
Proof.
  intros Ht. destruct (reachable_sink_shape _ _ _ _ Ht) as [[_ Hst] [Hcl _]].
  rewrite Hcl. unfold Program.past_cancel. destruct (Program.mpc s).
  - destruct Hst as [_ ->]. split; [reflexivity|]. intros sp E. discriminate E.
  - destruct Hst as (sp & w & -> & _ & Hc & Hf). rewrite Hc. split; [reflexivity|].
    intros sp0 [= <-]. rewrite Hc. split; [reflexivity | exact Hf].
  - destruct Hst as (sp & -> & _ & Hc & Hf). split; [exact Hc|].
    intros sp0 [= <-]. split; assumption.
  - destruct Hst as (sp & -> & _ & Hc & Hf). split; [exact Hc|].
    intros sp0 [= <-]. split; assumption.
  - destruct Hst as [[_ ->]|(sp & e & -> & _ & _ & Hc & Hf)].
    + split; [reflexivity|]. intros sp E. discriminate E.
    + rewrite Hc. split; [reflexivity|]. intros sp0 [= <-]. rewrite Hc.
      split; [reflexivity | exact Hf].
Qed.

(** As long as the spinner was not started, nothing but the "Working... "
    write is on the trace, unless [setRaw(true)] at line 139 threw: then
    [main] has thrown, and the trace is that write, the refused call and the
    show-cursor write of the finally block; no hide-cursor sequence, no read. *)
Theorem without_spinner_nothing_is_hidden
    (d : Program.stdin) (evs : list Program.event) (s : Program.state) (out : list effect) :
  Program.trace_of d evs = Some (s, out) ->
  Program.spinner s = None ->
  out = [EWrite Program.WORKING] \/
  (out = [EWrite Program.WORKING; ESetRaw true; EWrite Program.SHOW] /\
   Program.main_finished s = true).
Proof.
  intros Ht Hn. destruct (reachable_sink_shape _ _ _ _ Ht) as [[_ Hst] [_ Hsh]].
  unfold Program.main_finished. destruct (Program.mpc s).
  - now left.
  - destruct Hst as (sp & w & E & _). congruence.
  - destruct Hst as (sp & E & _). congruence.
  - destruct Hst as (sp & E & _). congruence.
  - destruct Hsh as [_ Hsh]. destruct (Hsh Hn) as [E|E]; [now left | now right].
Qed.

Lemma spin_step_leaves_stdin (tail : option error) (ev : event) (sp sp' : state)
    (o : list effect) :
  step tail ev sp = Some (sp', o) -> Program.entered_try o = false.
Proof. intros H. step_cases H; reflexivity. Qed.

Lemma step_raw_mode_restored (ev : Program.event) (s s' : Program.state)
    (out o : list effect) :
  Program.raw_mode_restored s out ->
  Program.step ev s = Some (s', o) ->
  Program.raw_mode_restored s' (out ++ o).
Proof.
  intros (Hf & He & Hw) H. unfold Program.raw_mode_restored.
  rewrite entered_try_app.
  destruct ev as [r|r| | |ev];
    [program_cases H .. | ];
    cbn [Program.mpc Program.spinner Program.wfk Program.dev Program.faults
         Program.raw Program.entered_try existsb] in *;
    try congruence; rewrite ?orb_false_r;
    try solve [split; [first [reflexivity | assumption]|];
               split; [first [discriminate | assumption]|];
               first [exact I | reflexivity | assumption]].
  - destruct (spinner_step _ _ _ _ H) as (sp & sp' & Hc & Hsp & Hs & ->).
    cbn [Program.mpc Program.spinner Program.wfk Program.dev].
    rewrite (spin_step_leaves_stdin _ _ _ _ _ Hs), orb_false_r.
    repeat split; assumption.
Qed.

(** On a stream whose [setRaw] calls go through, [main] does not leave
    stdin in raw mode: whenever it has finished after entering its try
    block, by returning or by throwing, the stream is out of raw mode. *)
Theorem main_leaves_stdin_out_of_raw_mode
    (d : Program.stdin) (evs : list Program.event) (s : Program.state) (out : list effect) :
  Program.faults d = [] ->
  Program.trace_of d evs = Some (s, out) ->
  Program.main_finished s = true ->
  Program.entered_try out = true ->
  Program.raw (Program.dev s) = false.
Proof.
  intros Hd Ht Hfin Hent.
  destruct (reachable_structure _ _ _ _ Ht) as [_ Hst].
  assert (Hinv : Program.raw_mode_restored s out).
  { revert Ht. apply (program_trace_invariant Program.raw_mode_restored).
    - split; [exact Hd|]. split; [discriminate | exact I].
    - intros ev s0 out0 s1 out1. apply step_raw_mode_restored. }
  destruct Hinv as (_ & He & Hw). specialize (He Hent).
  unfold Program.main_finished in Hfin.
  destruct (Program.mpc s); try discriminate Hfin.
  - destruct Hst as (sp & _ & E & _). now rewrite E in Hw.
  - destruct Hst as [[E _]|(sp & e & _ & E & _)]; [contradiction|].
    now rewrite E in Hw.
Qed.

Lemma step_caused_by (cause : error -> Prop) (ev : Program.event)
    (s s' : Program.state) (o : list effect) :
  (forall e, ev = Program.WorkingWritten (Failed e) -> cause e) ->
  (forall e, ev = Program.KeyRead (Failed e) -> cause e) ->
  Program.caused_by cause s ->
  Program.step ev s = Some (s', o) ->
  Program.caused_by cause s'.
Proof.
  intros Hw Hk (Hm & Hwf & Hfl & Hu) H. unfold Program.caused_by.
  destruct ev as [r|r| | |ev];
    [program_cases H;
     cbn [Program.mpc Program.spinner Program.wfk Program.dev Program.faults] in *;
     repeat match goal with
            | E : Program.faults (Program.dev s) = _ |- _ => rewrite E in Hfl; clear E
            end;
     subst; cbn [In] in Hfl;
     try (exfalso; destruct (Hu _ eq_refl) as [_ Hn]; eapply Hn; eassumption);
     (split; [|split; [|split]]);
     try (intros reason E; try discriminate E; try (injection E as <-); now eauto 6);
     try (intros e' E; try discriminate E;
          try (injection E as E); try (injection E as E); subst; now eauto 6);
     try (intros e' E; cbn [In] in E; now eauto 6);
     try (intros sp0 E; first [injection E as <-; exact new_unrejected
                              | injection E as <-; cbn; now eauto | now eauto]) .. | ].
  destruct (spinner_step _ _ _ _ H) as (sp & sp' & Hc & Hsp & Hs & ->).
  cbn [Program.mpc Program.spinner Program.wfk Program.dev].
  split; [exact Hm|]. split; [exact Hwf|]. split; [exact Hfl|].
  intros sp0 E. injection E as <-. eapply step_unrejected; [|exact Hs]. now apply Hu.
Qed.

Lemma run_caused_by (cause : error -> Prop) (evs : list Program.event)
    (s s' : Program.state) (out : list effect) :
  (forall e, In (Program.WorkingWritten (Failed e)) evs -> cause e) ->
  (forall e, In (Program.KeyRead (Failed e)) evs -> cause e) ->
  Program.caused_by cause s ->
  Program.run evs s = Some (s', out) ->
  Program.caused_by cause s'.
Proof.
  revert s out. induction evs as [|ev evs IH]; intros s out Hw Hk Hc Hr.
  - cbn in Hr. now injection Hr as <- <-.
  - cbn [Program.run] in Hr.
    destruct (Program.step ev s) as [[s1 out1]|] eqn:Hs; [|discriminate Hr].
    destruct (Program.run evs s1) as [[s2 out2]|] eqn:Hr1; [|discriminate Hr].
    injection Hr as <- <-.
    apply (IH s1 out2); try assumption.
    + intros e Hin. apply Hw. now right.
    + intros e Hin. apply Hk. now right.
    + apply (step_caused_by cause ev s s1 out1); try assumption.
      * intros e ->. apply Hw. now left.
      * intros e ->. apply Hk. now left.
Qed.

(** [main] fails for three reasons only: the write of line 136 failed, a
    call of [setRaw] threw, or the read of the key failed; it throws that
    very failure.  What goes wrong in the animation (a frame or cleanup write
    that fails, a timer that fails, the throw of line 98) never makes [main]
    fail. *)
Theorem main_fails_only_for_stdin_or_first_write
    (d : Program.stdin) (evs : list Program.event) (s : Program.state) (out : list effect)
    (reason : value) :
  Program.trace_of d evs = Some (s, out) ->
  Program.mpc s = Program.MThrown reason ->
  exists e,
    reason = VError e /\
    (In (Program.WorkingWritten (Failed e)) evs \/
     In (Program.KeyRead (Failed e)) evs \/
     In (Some e) (Program.faults d)).
Proof.
  intros Ht Hm. unfold Program.trace_of in Ht.
  destruct (Program.run evs (fst (Program.main d))) as [[s1 out1]|] eqn:Hr; [|discriminate Ht].
  injection Ht as <- <-.
  set (cause := fun e => In (Program.WorkingWritten (Failed e)) evs \/
                        In (Program.KeyRead (Failed e)) evs \/
                        In (Some e) (Program.faults d)).
  assert (H0 : Program.caused_by cause (fst (Program.main d))).
  { split; [intros r E; discriminate E|]. split; [intros e E; discriminate E|].
    split; [intros e E; right; right; exact E|]. intros sp E. discriminate E. }
  destruct (run_caused_by cause evs _ _ _
              (fun e H => or_introl H) (fun e H => or_intror (or_introl H)) H0 Hr)
    as [H _].
  exact (H _ Hm).
Qed.

(** ** The show-cursor write of the finally block *)

Lemma step_written (ev : Program.event) (s s' : Program.state) (o : list effect) :
  Program.step ev s = Some (s', o) -> Forall Program.written (writes o).
Proof.
  intros H. destruct ev as [r|r| | |ev].
  - program_cases H; cbn [writes flat_map app];
      repeat (first [apply List.Forall_nil | apply List.Forall_cons]);
      unfold Program.written; auto.
  - program_cases H; cbn [writes flat_map app];
      repeat (first [apply List.Forall_nil | apply List.Forall_cons]).
  - program_cases H; cbn [writes flat_map app];
      repeat (first [apply List.Forall_nil | apply List.Forall_cons]);
      unfold Program.written; auto.
  - program_cases H; cbn [writes flat_map app];
      repeat (first [apply List.Forall_nil | apply List.Forall_cons]);
      unfold Program.written; auto.
  - destruct (spinner_step _ _ _ _ H) as (sp & sp' & _ & _ & Hs & _).
    pose proof (step_writes_cleanup_or_frame _ _ _ _ _ Hs) as F.
    eapply Forall_impl; [exact F|]. intros b [->|Hb]; unfold Program.written; auto.
Qed.

Lemma reachable_written (d : Program.stdin) (evs : list Program.event)
    (s : Program.state) (out : list effect) :
  Program.trace_of d evs = Some (s, out) -> Forall Program.written (writes out).
Proof.
  apply (program_trace_invariant (fun _ out => Forall Program.written (writes out))).
  - cbn. apply List.Forall_cons; [|apply List.Forall_nil]. unfold Program.written. auto.
  - intros ev s0 out0 s1 out1 F Hs. rewrite writes_app. apply Forall_app.
    split; [exact F|]. exact (step_written _ _ _ _ Hs).
Qed.

(** Each byte array the program writes is made of whole escape sequences
    and characters: received whole, it leaves the terminal between escape
    sequences. *)
Lemma receive_written (ws : list (list Z)) (v : bool) :
  Forall Program.written ws ->
  exists v', Terminal.feed_all (Terminal.at_rest v) (concat ws) = Terminal.at_rest v'.
Proof.
  intros F. revert v. induction F as [|b ws Hb _ IH]; intros v.
  - exists v. reflexivity.
  - cbn [concat]. rewrite feed_all_app.
    destruct Hb as [->|[->|[->|[->|[i ->]]]]];
      rewrite ?feed_working, ?feed_show, ?feed_hide, ?feed_cleanup, ?feed_frame;
      apply IH.
Qed.

(** When [main] finishes, by returning or by throwing, after it entered its
    try block, the show-cursor write of the finally block has been issued,
    and every write issued after it is a frame.  A terminal that receives
    that write and any of the other writes, in order and each whole, is left
    with its cursor shown. *)
Theorem main_finishing_issues_show_cursor
    (d : Program.stdin) (evs : list Program.event) (s : Program.state) (out : list effect) :
  Program.trace_of d evs = Some (s, out) ->
  Program.main_finished s = true ->
  Program.entered_try out = true ->
  exists pre post,
    writes out = pre ++ Program.SHOW :: post /\
    Forall (fun b => exists i, b = frame_at i) post /\
    forall ws1 ws2,
      sublist ws1 pre -> sublist ws2 post ->
      Terminal.receive (ws1 ++ Program.SHOW :: ws2) = Terminal.at_rest true.
Proof.
  intros Ht Hf He.
  pose proof (program_reachable_invariant _ _ _ _ Ht) as Hm.
  pose proof (reachable_written _ _ _ _ Ht) as Hw.
  unfold Program.invariant in Hm. unfold Program.main_finished in Hf.
  assert (Hk : exists pre post,
             writes out = pre ++ Program.SHOW :: post /\
             Forall (fun b => exists i, b = frame_at i) post)
    by (destruct (Program.mpc s); try discriminate Hf; exact (Hm He)).
  destruct Hk as (pre & post & Ew & F). exists pre, post.
  split; [exact Ew|]. split; [exact F|].
  intros ws1 ws2 H1 H2. rewrite Ew in Hw. apply Forall_app in Hw as [Hpre _].
  assert (F1 : Forall Program.written ws1).
  { rewrite List.Forall_forall in *. intros b Hb. apply Hpre.
    exact (sublist_In _ _ H1 b Hb). }
  assert (F2 : Forall (fun b => b = CLEANUP \/ exists i, b = frame_at i) ws2).
  { rewrite List.Forall_forall in *. intros b Hb. right. apply F.
    exact (sublist_In _ _ H2 b Hb). }
  unfold Terminal.receive. rewrite concat_app. cbn [concat].
  rewrite !feed_all_app. change Terminal.initial with (Terminal.at_rest true).
  destruct (receive_written ws1 true F1) as [v' ->].
  rewrite feed_show, (receive_cleanups_and_frames ws2 true F2). reflexivity.
Qed.

(** ** waitForKeypress, failure by failure *)

(** [waitForKeypress] calls [setRaw(true)], reads only if that call went
    through, and calls [setRaw(false)]; nothing else.  What it ends with is
    decided from the last call backwards: a failure of [setRaw(false)]
    replaces whatever happened before, else a failure of [setRaw(true)] is
    thrown, else the outcome is that of the read. *)
Theorem waitForKeypress_failure_precedence (r : io) (d : Program.stdin) :
  Program.waitForKeypress r d =
  (match snd (Program.setRaw false (fst (Program.setRaw true d))),
         snd (Program.setRaw true d), r with
   | Some e2, _, _ => Program.WThrown e2
   | None, Some e1, _ => Program.WThrown e1
   | None, None, Failed e => Program.WThrown e
   | None, None, Completed => Program.WReturned
   end,
   fst (Program.setRaw false (fst (Program.setRaw true d))),
   ESetRaw true ::
   match snd (Program.setRaw true d) with
   | None => [ERead]
   | Some _ => []
   end ++ [ESetRaw false]).
Proof.
  unfold Program.waitForKeypress, Program.wfk_call, Program.wfk_resume,
    Program.wfk_finally, Program.setRaw.
  destruct d as [raw0 [|[e0|] [|[e1|] rest]]]; destruct r as [|e]; reflexivity.
Qed.

(** ** encode *)

Lemma below_checked (P : Z -> bool) (n : nat) :
  forallb P (map Z.of_nat (seq 0 n)) = true ->
  forall x, 0 <= x < Z.of_nat n -> P x = true.
Proof.
  intros H x Hx. rewrite forallb_forall in H. apply H.
  apply in_map_iff. exists (Z.to_nat x). split; [lia|].
  apply in_seq. lia.
Qed.

Lemma lor_continuation (x : Z) : 0 <= x < 64 -> Z.lor 0x80 x = 0x80 + x.
Proof.
  intros Hx. apply Z.eqb_eq.
  apply (below_checked (fun x => Z.lor 0x80 x =? 0x80 + x) 64); [reflexivity | lia].
Qed.

Lemma lor_lead2 (x : Z) : 0 <= x < 32 -> Z.lor 0xC0 x = 0xC0 + x.
Proof.
  intros Hx. apply Z.eqb_eq.
  apply (below_checked (fun x => Z.lor 0xC0 x =? 0xC0 + x) 32); [reflexivity | lia].
Qed.

Lemma lor_lead3 (x : Z) : 0 <= x < 16 -> Z.lor 0xE0 x = 0xE0 + x.
Proof.
  intros Hx. apply Z.eqb_eq.
  apply (below_checked (fun x => Z.lor 0xE0 x =? 0xE0 + x) 16); [reflexivity | lia].
Qed.

Lemma lor_lead4 (x : Z) : 0 <= x < 8 -> Z.lor 0xF0 x = 0xF0 + x.
Proof.
  intros Hx. apply Z.eqb_eq.
  apply (below_checked (fun x => Z.lor 0xF0 x =? 0xF0 + x) 8); [reflexivity | lia].
Qed.

Lemma land_6_bits (x : Z) : Z.land x 0x3F = x mod 64.
Proof. change 0x3F with (Z.ones 6). now rewrite Z.land_ones by lia. Qed.

Lemma continuation_byte (x : Z) : Z.lor 0x80 (Z.land x 0x3F) = 0x80 + x mod 64.
Proof.
  rewrite land_6_bits. apply lor_continuation. apply Z.mod_pos_bound. lia.
Qed.

(** The four forms of the encoding of a scalar value, in arithmetic. *)
Lemma utf8_forms (c : Z) :
  Text.scalar c ->
  (0 <= c < 0x80 /\ Text.utf8 c = [c]) \/
  (0x80 <= c < 0x800 /\ Text.utf8 c = [0xC0 + c / 64; 0x80 + c mod 64]) \/
  (0x800 <= c < 0x10000 /\
   Text.utf8 c = [0xE0 + c / 4096; 0x80 + (c / 64) mod 64; 0x80 + c mod 64]) \/
  (0x10000 <= c < 0x110000 /\
   Text.utf8 c = [0xF0 + c / 262144; 0x80 + (c / 4096) mod 64;
                  0x80 + (c / 64) mod 64; 0x80 + c mod 64]).
Proof.
  intros Hs. unfold Text.utf8.
  assert (Hsur : (0xD800 <=? c) && (c <=? 0xDFFF) = false).
  { destruct Hs as [Hs|Hs]; apply andb_false_iff; [left | right]; lia. }
  rewrite Hsur, !continuation_byte, !Z.shiftr_div_pow2 by lia.
  change (2 ^ 6) with 64. change (2 ^ 12) with 4096. change (2 ^ 18) with 262144.
  destruct (c <? 0x80) eqn:E1; [left; split; [destruct Hs; lia | reflexivity]|].
  destruct (c <? 0x800) eqn:E2.
  { right; left. split; [lia|]. rewrite lor_lead2; [reflexivity|].
    split; [apply Z.div_pos; lia | apply Z.div_lt_upper_bound; lia]. }
  destruct (c <? 0x10000) eqn:E3.
  { right; right; left. split; [lia|]. rewrite lor_lead3; [reflexivity|].
    split; [apply Z.div_pos; lia | apply Z.div_lt_upper_bound; lia]. }
  right; right; right. split; [destruct Hs; lia|]. rewrite lor_lead4; [reflexivity|].
  split; [apply Z.div_pos; lia | apply Z.div_lt_upper_bound; destruct Hs; lia].
Qed.

(** The encoding of a scalar value can be told from whatever follows it. *)
Lemma utf8_prefix_free (c1 c2 : Z) (r1 r2 : list Z) :
  Text.scalar c1 -> Text.scalar c2 ->
  Text.utf8 c1 ++ r1 = Text.utf8 c2 ++ r2 -> c1 = c2 /\ r1 = r2.
Proof.
  intros H1 H2 E.
  destruct (utf8_forms c1 H1) as [[B1 F1]|[[B1 F1]|[[B1 F1]|[B1 F1]]]];
    destruct (utf8_forms c2 H2) as [[B2 F2]|[[B2 F2]|[[B2 F2]|[B2 F2]]]];
    rewrite F1, F2 in E; cbn [app] in E;
    injection E; intros; subst;
    first [split; [|reflexivity]; Z.div_mod_to_equations; lia
          | exfalso; Z.div_mod_to_equations; lia].
Qed.

Lemma TextEncoder_encode_injective (a b : Text.jsstring) :
  Forall Text.scalar a -> Forall Text.scalar b ->
  Text.TextEncoder_encode a = Text.TextEncoder_encode b -> a = b.
Proof.
  unfold Text.TextEncoder_encode. intros Ha. revert b.
  induction Ha as [|c a Hc Ha IH]; intros b Hb E.
  - destruct Hb as [|c' b Hc' Hb]; [reflexivity|]. cbn [flat_map] in E.
    destruct (utf8_forms c' Hc') as [[_ F]|[[_ F]|[[_ F]|[_ F]]]];
      rewrite F in E; discriminate E.
  - destruct Hb as [|c' b Hc' Hb]; cbn [flat_map] in E.
    + destruct (utf8_forms c Hc) as [[_ F]|[[_ F]|[[_ F]|[_ F]]]];
        rewrite F in E; discriminate E.
    + destruct (utf8_prefix_free _ _ _ _ Hc Hc' E) as [-> E'].
      f_equal. now apply IH.
Qed.

Lemma frame_at_encode (i : nat) :
  (i < 256)%nat -> frame_at i = Text.encode [0x2800 + Z.of_nat i].
Proof.
  intros Hi. unfold frame_at, Text.ALL_BRAILLE_FRAMES, Text.ALL_BRAILLE_CHARS, Text.Array_from.
  rewrite map_map.
  rewrite (nth_indep _ []
             ((fun i => Text.encode (Text.fromCodePoint (0x2800 + Z.of_nat i))) 0%nat))
    by (rewrite length_map, length_seq; exact Hi).
  rewrite (map_nth (fun i => Text.encode (Text.fromCodePoint (0x2800 + Z.of_nat i)))).
  rewrite seq_nth by exact Hi. reflexivity.
Qed.

(** [encode] loses nothing: two strings of scalar values with the same
    frame bytes are the same string. *)
Theorem encode_is_injective (a b : Text.jsstring) :
  Forall Text.scalar a -> Forall Text.scalar b ->
  Text.encode a = Text.encode b -> a = b.
Proof.
  intros Ha Hb E. rewrite !encode_split in E.
  apply app_inv_head in E. now apply TextEncoder_encode_injective.
Qed.

(** The frames of the table are pairwise distinct: every tick of the
    animation changes the glyph on the sink. *)
Theorem frames_are_pairwise_distinct : List.NoDup Text.ALL_BRAILLE_FRAMES.
Proof.
  apply (List.NoDup_nth Text.ALL_BRAILLE_FRAMES []).
  rewrite braille_frames_length. intros i j Hi Hj Ef.
  change (frame_at i = frame_at j) in Ef.
  rewrite !frame_at_encode in Ef by assumption.
  rewrite !encode_split in Ef. apply app_inv_head in Ef.
  apply TextEncoder_encode_injective in Ef.
  - assert (Ez : 0x2800 + Z.of_nat i = 0x2800 + Z.of_nat j) by congruence. lia.
  - constructor; [left; lia | constructor].
  - constructor; [left; lia | constructor].
Qed.

(** ** The further properties at concrete runs *)

(** [done] was fulfilled by a call of [cancel]; the loop then fails. *)
Lemma done_outcome_is_stable_witness :
  exists s s' out out',
    trace_of line98 None (cancel_events 0) = Some (s, out) /\
    run line98 [LoopResume (Failed (ErrEnv 1)); React] s = Some (s', out') /\
    is_pending (Deferred.promise (done s)) = false /\
    Deferred.promise (done s') = Fulfilled VUndefined.
Proof.
  eexists. eexists. eexists. eexists.
  split; [reflexivity|]. split; [reflexivity|]. split; [reflexivity|].
  exact (done_outcome_is_stable line98 [LoopResume (Failed (ErrEnv 1)); React]
           (after_cancel (fst (spin None))) _ _ eq_refl eq_refl).
Defined.

(** The first frame's write fails and the reaction runs; [cancel] is
    called afterwards. *)
Lemma first_settlement_decides_done_witness :
  exists s s' out out',
    trace_of line98 None
      [LoopResume Completed; LoopResume (Failed (ErrEnv 1)); React] = Some (s, out) /\
    run line98 (cancel_events 0) s = Some (s', out') /\
    loop s = LThrown (ErrEnv 1) /\ calls s = [] /\ reacted s = true /\
    Deferred.promise (done s') = Fulfilled (VError (ErrEnv 1)).
Proof.
  eexists. eexists. eexists. eexists.
  split; [reflexivity|]. split; [reflexivity|].
  split; [reflexivity|]. split; [reflexivity|]. split; [reflexivity|].
  exact (proj1 (first_settlement_decides_done line98 None
                  [LoopResume Completed; LoopResume (Failed (ErrEnv 1)); React]
                  (cancel_events 0) _ _ _ _ eq_refl eq_refl)
           (ErrEnv 1) eq_refl eq_refl eq_refl).
Defined.

Lemma one_cleanup_per_cancel_call_witness :
  exists s out,
    trace_of line98 None (cancel_events 0 ++ cancel_events 1) = Some (s, out) /\
    cleanups out = length (calls s) /\
    length (calls s) = 2%nat.
Proof.
  eexists. eexists. split; [reflexivity|].
  exact (one_cleanup_per_cancel_call line98 None (cancel_events 0 ++ cancel_events 1)
           _ _ eq_refl).
Defined.

Lemma spin_effects_witness :
  exists s out,
    trace_of line98 (Some 40) [LoopResume Completed; LoopResume Completed; CallCancel]
    = Some (s, out) /\
    in_table (loop s) /\
    exists rest,
      out = EWrite HIDE :: rest /\
      Forall (spin_effect 40) rest /\
      ~ In (EWrite HIDE) rest.
Proof.
  eexists. eexists. split; [reflexivity|].
  exact (spin_effects_are_hide_then_frames_timers_cleanups line98 (Some 40)
           [LoopResume Completed; LoopResume Completed; CallCancel] _ _ eq_refl).
Defined.

(** [cancel] is called after the first frame, and its cleanup write is
    rejected: the terminal received the hide-cursor write and the frame, and
    its cursor is hidden. *)
Lemma cursor_hidden_until_a_cleanup_is_received_witness :
  exists s out,
    trace_of line98 None [LoopResume Completed; CallCancel; CancelWritten 0 (Failed (ErrEnv 9))]
    = Some (s, out) /\
    writes out = [HIDE; frame_at 0; CLEANUP] /\
    sublist [HIDE; frame_at 0] (writes out) /\
    Terminal.receive [HIDE; frame_at 0] = Terminal.at_rest false /\
    Terminal.receive [HIDE; frame_at 0] =
    Terminal.at_rest (negb (bool_decide (HIDE ∈ [HIDE; frame_at 0]))
                      || bool_decide (CLEANUP ∈ [HIDE; frame_at 0])).
Proof.
  eexists. eexists. split; [reflexivity|]. split; [reflexivity|].
  assert (Hsub : sublist [HIDE; frame_at 0] [HIDE; frame_at 0; CLEANUP])
    by (apply sublist_skip, sublist_skip, sublist_cons, sublist_nil).
  split; [exact Hsub|]. split; [reflexivity|].
  exact (proj1 (cursor_hidden_until_a_cleanup_is_received line98 None
                  [LoopResume Completed; CallCancel; CancelWritten 0 (Failed (ErrEnv 9))]
                  _ _ [HIDE; frame_at 0] eq_refl Hsub)).
Defined.

(** [cancel] was called while the first frame was being written. *)
Lemma loop_ends_within_two_resumptions_of_cancel_witness :
  exists s' out,
    run line98 [LoopResume Completed; LoopResume Completed]
      (set_calls [CAwaitWrite] (set_cancelled (set_loop (LAwaitWrite 0) (fst (spin None)))))
    = Some (s', out) /\
    loop s' = LThrown ErrTest /\
    (2 <= 2)%nat /\ (2 <= 2)%nat /\ (length (timers out) <= 1)%nat /\ (1 <= 1)%nat.
Proof.
  eexists. eexists. split; [reflexivity|]. split; [reflexivity|].
  exact (loop_ends_within_two_resumptions_of_cancel line98
           [LoopResume Completed; LoopResume Completed]
           (set_calls [CAwaitWrite] (set_cancelled (set_loop (LAwaitWrite 0) (fst (spin None)))))
           _ _ eq_refl eq_refl).
Defined.

Lemma main_returns_after_cleanup_then_show_witness :
  exists s out,
    Program.trace_of Program.terminal_stdin Program.keypress_events = Some (s, out) /\
    Program.returned s = true /\
    Program.logged out = 1%nat /\
    Program.wfk s = Some Program.WReturned /\
    exists pre, writes out = pre ++ [CLEANUP; Program.SHOW].
Proof.
  eexists. eexists. split; [reflexivity|]. split; [reflexivity|].
  split.
  - exact (proj1 (main_returns_after_cleanup_then_show Program.terminal_stdin Program.keypress_events
                    _ _ eq_refl)).
  - exact (proj2 (main_returns_after_cleanup_then_show Program.terminal_stdin Program.keypress_events
                    _ _ eq_refl) eq_refl).
Defined.

Lemma main_calls_cancel_at_most_once_witness :
  exists s out sp,
    Program.trace_of Program.terminal_stdin Program.failed_read_events = Some (s, out) /\
    Program.spinner s = Some sp /\
    Program.past_cancel s = false /\
    cleanups out = 0%nat /\
    length (calls sp) = 0%nat /\
    cancelled sp = false.
Proof.
  eexists. eexists. eexists. split; [reflexivity|]. split; [reflexivity|].
  split; [reflexivity|]. split.
  - exact (proj1 (main_calls_cancel_at_most_once Program.terminal_stdin Program.failed_read_events
                    _ _ eq_refl)).
  - exact (proj2 (main_calls_cancel_at_most_once Program.terminal_stdin Program.failed_read_events
                    _ _ eq_refl) _ eq_refl).
Defined.

Lemma without_spinner_nothing_is_hidden_witness :
  exists s out,
    Program.trace_of Program.piped_stdin [Program.WorkingWritten Completed] = Some (s, out) /\
    Program.spinner s = None /\
    (out = [EWrite Program.WORKING] \/
     (out = [EWrite Program.WORKING; ESetRaw true; EWrite Program.SHOW] /\
      Program.main_finished s = true)).
Proof.
  eexists. eexists. split; [reflexivity|]. split; [reflexivity|].
  exact (without_spinner_nothing_is_hidden Program.piped_stdin [Program.WorkingWritten Completed]
           _ _ eq_refl eq_refl).
Defined.

Lemma main_leaves_stdin_out_of_raw_mode_witness :
  exists s out,
    Program.faults Program.terminal_stdin = [] /\
    Program.trace_of Program.terminal_stdin Program.failed_read_events = Some (s, out) /\
    Program.main_finished s = true /\
    Program.entered_try out = true /\
    Program.raw (Program.dev s) = false.
Proof.
  eexists. eexists. split; [reflexivity|]. split; [reflexivity|].
  split; [reflexivity|]. split; [reflexivity|].
  exact (main_leaves_stdin_out_of_raw_mode Program.terminal_stdin Program.failed_read_events _ _
           eq_refl eq_refl eq_refl eq_refl).
Defined.

Lemma main_fails_only_for_stdin_or_first_write_witness :
  exists s out,
    Program.trace_of Program.terminal_stdin Program.failed_read_events = Some (s, out) /\
    Program.mpc s = Program.MThrown (VError (ErrEnv 5)) /\
    exists e,
      VError (ErrEnv 5) = VError e /\
      (In (Program.WorkingWritten (Failed e)) Program.failed_read_events \/
       In (Program.KeyRead (Failed e)) Program.failed_read_events \/
       In (Some e) (Program.faults Program.terminal_stdin)).
Proof.
  eexists. eexists. split; [reflexivity|]. split; [reflexivity|].
  exact (main_fails_only_for_stdin_or_first_write Program.terminal_stdin Program.failed_read_events
           _ _ _ eq_refl eq_refl).
Defined.

(** The read of the key fails: [main] throws, through its finally block. *)
Lemma main_finishing_issues_show_cursor_witness :
  exists s out,
    Program.trace_of Program.terminal_stdin Program.failed_read_events = Some (s, out) /\
    Program.mpc s = Program.MThrown (VError (ErrEnv 5)) /\
    writes out = [Program.WORKING; HIDE; frame_at 0; Program.SHOW] /\
    exists pre post,
      writes out = pre ++ Program.SHOW :: post /\
      Forall (fun b => exists i, b = frame_at i) post /\
      forall ws1 ws2,
        sublist ws1 pre -> sublist ws2 post ->
        Terminal.receive (ws1 ++ Program.SHOW :: ws2) = Terminal.at_rest true.
Proof.
  eexists. eexists. split; [reflexivity|]. split; [reflexivity|]. split; [reflexivity|].
  exact (main_finishing_issues_show_cursor Program.terminal_stdin Program.failed_read_events
           _ _ eq_refl eq_refl eq_refl).
Defined.

(** A glyph outside the basic plane, four bytes long. *)
Lemma encode_is_injective_witness :
  Forall Text.scalar [0x1F600] /\
  Text.encode [0x1F600] = [27; 91; 49; 68; 0xF0; 0x9F; 0x98; 0x80] /\
  [0x1F600] = [0x1F600].
Proof.
  assert (H : Forall Text.scalar [0x1F600])
    by (apply List.Forall_cons;
        [right; split; [intros E; discriminate E | reflexivity] | apply List.Forall_nil]).
  split; [exact H|]. split; [reflexivity|].
  exact (encode_is_injective [0x1F600] [0x1F600] H H eq_refl).
Defined.

(** ** Cancelling before the first frame *)

Lemma frame_writes_of_cleanups (out : list effect) :
  (forall b, In (EWrite b) out -> b = CLEANUP) -> frame_writes out = [].
Proof.
  induction out as [|e out IH]; intros H; [reflexivity|].
  cbn [frame_writes flat_map]. fold (frame_writes out).
  rewrite IH by (intros b Hb; apply H; now right).
  destruct e as [b| | | |]; try reflexivity.
  rewrite (H b (or_introl eq_refl)), cleanup_not_frame. reflexivity.
Qed.

(** A call of [cancel] made right after [spin], before the hide-cursor
    write has completed, keeps the animation from ever starting: in every
    run that begins with it no frame is written and no timer is started,
    whatever the loop's closing statement is. *)
Theorem cancel_before_first_frame_suppresses_animation
    (tail : option error) (arg : option Z) (evs : list event) (s : state)
    (out : list effect) :
  trace_of tail arg (CallCancel :: evs) = Some (s, out) ->
  frame_writes out = [] /\
  timers out = [] /\
  cancelled s = true /\
  exists rest, out = EWrite HIDE :: EWrite CLEANUP :: rest /\
               forall b, In (EWrite b) rest -> b = CLEANUP.
Proof.
  unfold trace_of. cbn [run step]. intros H.
  set (s0 := set_calls (calls (fst (spin arg)) ++ [CAwaitWrite])
               (set_cancelled (fst (spin arg)))) in *.
  destruct (run tail evs s0) as [[s1 out1]|] eqn:Hr; [|discriminate H].
  injection H as <- <-.
  destruct (run_after_cancelled tail evs s0 _ _ eq_refl Hr) as [Hc Hw].
  destruct (loop_ends_within_two_resumptions_of_cancel_aux tail evs s0 _ _ eq_refl Hr)
    as [_ Ht].
  cbn [spin snd app].
  assert (Hf : frame_writes out1 = []) by now apply frame_writes_of_cleanups.
  assert (Ht' : timers out1 = []).
  { cbn in Ht. destruct (timers out1); [reflexivity | cbn in Ht; lia]. }
  split.
  - change (frame_writes ([EWrite HIDE; EWrite CLEANUP] ++ out1) = []).
    rewrite frame_writes_app, Hf. cbn [frame_writes flat_map app].
    now rewrite hide_not_frame, cleanup_not_frame.
  - split; [exact Ht'|]. split; [exact Hc|]. now exists out1.
Qed.

Lemma cancel_before_first_frame_witness :
  exists s out,
    trace_of None None
      [CallCancel; LoopResume Completed; CancelWritten 0 Completed; React; CancelDone 0]
    = Some (s, out) /\
    loop s = LReturned /\
    frame_writes out = [] /\
    timers out = [] /\
    cancelled s = true /\
    exists rest, out = EWrite HIDE :: EWrite CLEANUP :: rest /\
                 forall b, In (EWrite b) rest -> b = CLEANUP.
Proof.
  eexists. eexists. split; [reflexivity|]. split; [reflexivity|].
  exact (cancel_before_first_frame_suppresses_animation None None
           [LoopResume Completed; CancelWritten 0 Completed; React; CancelDone 0]
           _ _ eq_refl).
Defined.
